(** * Cache Guard: a Redis module against cache stampedes

    Shallow embedding of the two [cache.guard.*] command sets of the
    repository:

    - [Original]: [cache-anit-tampede.c] ([TryAcquireLock],
      [CacheGuardGetCommand], [CacheGuardSetCommand]);
    - [Enhanced]: the hardened source ([CreateLockKey], [TryAcquireLock],
      [CacheGuardGetCommand], [CacheGuardSetCommand] with the
      [module_config] record and the validation constants).

    Redis runs a module command to completion before it starts the next
    one, so a command is a function from the keyspace to a reply and a new
    keyspace, and callers that arrive together are a sequence of such
    commands executed at one instant.

    Not modelled: the [LOG_*] macros, which only write to the server log,
    and failure of [RedisModule_Alloc]; the [if (!key)] tests on
    [argv] entries, which are never NULL. Sizes are far below the range
    of [size_t], so its arithmetic is written without wrap-around. *)

From Stdlib Require Import ZArith String Ascii List Bool Lia DecimalString.
From stdpp Require Import base option gmap strings.
Import ListNotations.

Local Open Scope string_scope.
Local Open Scope Z_scope.

(** ** The keyspace and the part of the Redis module API the commands use

    [redismodule.h] and the server are not part of the repository; the
    functions below follow the contract of the module API, the store
    interface on which the commands rely. *)
Module Redis.

Inductive status := REDISMODULE_OK | REDISMODULE_ERR.

Definition REDISMODULE_READ : Z := Z.shiftl 1 0.
Definition REDISMODULE_WRITE : Z := Z.shiftl 1 1.
Definition REDISMODULE_NO_EXPIRE : Z := -1.

Inductive keytype := KEYTYPE_EMPTY | KEYTYPE_STRING | KEYTYPE_OTHER.

Definition keytype_eqb (a b : keytype) : bool :=
  match a, b with
  | KEYTYPE_EMPTY, KEYTYPE_EMPTY
  | KEYTYPE_STRING, KEYTYPE_STRING
  | KEYTYPE_OTHER, KEYTYPE_OTHER => true
  | _, _ => false
  end.

(** A stored value: a binary-safe string, or a value of another Redis
    type (list, hash, set, ...). *)
Inductive rvalue := VString (s : string) | VOther.

(** An entry of the keyspace: its value and its remaining time to live in
    milliseconds ([None]: no expiry is set). The server removes an entry
    whose time is up lazily, so the keyspace may still hold one. *)
Record entry := Entry { value : rvalue; expire : option Z }.

(** The server as a command sees it: the keyspace, and the names of the
    keys opened so far (every access to the keyspace starts with
    [RedisModule_OpenKey]). *)
Record ctx := Ctx { db : gmap string entry; opened : list string }.

(** An open key handle; [None] in [option RedisModuleKey] is the NULL
    pointer. *)
Record RedisModuleKey := Key { kname : string; kmode : Z }.

Definition writable (k : RedisModuleKey) : bool := Z.testbit (kmode k) 1.

Definition exists_key (c : ctx) (name : string) : bool :=
  match db c !! name with Some _ => true | None => false end.

(** NULL is returned only for a missing key opened without
    [REDISMODULE_WRITE]. *)
Definition RedisModule_OpenKey (c : ctx) (name : string) (mode : Z)
  : option RedisModuleKey * ctx :=
  let c' := {| db := db c; opened := (opened c ++ [name])%list |} in
  if negb (Z.testbit mode 1) && negb (exists_key c name)
  then (None, c')
  else (Some (Key name mode), c').

Definition RedisModule_CloseKey (c : ctx) (k : option RedisModuleKey) : ctx := c.

Definition RedisModule_KeyType (c : ctx) (k : option RedisModuleKey) : keytype :=
  match k with
  | None => KEYTYPE_EMPTY
  | Some k =>
      match db c !! kname k with
      | None => KEYTYPE_EMPTY
      | Some (Entry (VString _) _) => KEYTYPE_STRING
      | Some (Entry VOther _) => KEYTYPE_OTHER
      end
  end.

(** Remaining time to live: [REDISMODULE_NO_EXPIRE] without expiry (or
    without key), otherwise the remaining milliseconds, never negative. *)
Definition RedisModule_GetExpire (c : ctx) (k : option RedisModuleKey) : Z :=
  match k with
  | None => REDISMODULE_NO_EXPIRE
  | Some k =>
      match db c !! kname k with
      | None => REDISMODULE_NO_EXPIRE
      | Some (Entry _ None) => REDISMODULE_NO_EXPIRE
      | Some (Entry _ (Some t)) => if 0 <=? t then t else 0
      end
  end.

(** Overwrites the key with a string; the previous value and its expiry
    are dropped. *)
Definition RedisModule_StringSet (c : ctx) (k : option RedisModuleKey) (v : string)
  : status * ctx :=
  match k with
  | None => (REDISMODULE_ERR, c)
  | Some k =>
      if writable k
      then (REDISMODULE_OK,
            {| db := <[kname k := Entry (VString v) None]> (db c); opened := opened c |})
      else (REDISMODULE_ERR, c)
  end.

(** Not a function of the module API; by its name and its use in
    [Original.TryAcquireLock]: [RedisModule_StringSet] if the key is
    empty, an error otherwise. *)
Definition RedisModule_StringSetNX (c : ctx) (k : option RedisModuleKey) (v : string)
  : status * ctx :=
  match RedisModule_KeyType c k with
  | KEYTYPE_EMPTY => RedisModule_StringSet c k v
  | _ => (REDISMODULE_ERR, c)
  end.

Definition RedisModule_SetExpire (c : ctx) (k : option RedisModuleKey) (ms : Z)
  : status * ctx :=
  match k with
  | None => (REDISMODULE_ERR, c)
  | Some k =>
      match db c !! kname k with
      | None => (REDISMODULE_ERR, c)
      | Some e =>
          if negb (writable k) || ((ms <? 0) && negb (ms =? REDISMODULE_NO_EXPIRE))
          then (REDISMODULE_ERR, c)
          else (REDISMODULE_OK,
                {| db := <[kname k :=
                             Entry (value e)
                                   (if ms =? REDISMODULE_NO_EXPIRE then None else Some ms)]>
                           (db c);
                   opened := opened c |})
      end
  end.

Definition RedisModule_DeleteKey (c : ctx) (k : option RedisModuleKey) : status * ctx :=
  match k with
  | None => (REDISMODULE_ERR, c)
  | Some k =>
      if writable k
      then (REDISMODULE_OK, {| db := delete (kname k) (db c); opened := opened c |})
      else (REDISMODULE_ERR, c)
  end.

(** Direct access to the bytes of a string value; NULL for another type. *)
Definition RedisModule_StringDMA (c : ctx) (k : option RedisModuleKey) : option string :=
  match k with
  | None => None
  | Some k =>
      match db c !! kname k with
      | Some (Entry (VString s) _) => Some s
      | _ => None
      end
  end.

(** Not a function of the module API; by its name and its use in
    [Original.CacheGuardGetCommand]: stores the string value in the
    out-parameter, which stays unset ([None]) for another type. *)
Definition RedisModule_StringGet (c : ctx) (k : option RedisModuleKey) : option string :=
  RedisModule_StringDMA c k.

Definition RedisModule_CreateStringFromLongLong (n : Z) : string :=
  NilZero.string_of_int (Z.to_int n).

(** [RedisModule_CreateString(ctx, ptr, len)]: the first [len] bytes. *)
Definition RedisModule_CreateString (buf : string) (len : nat) : string :=
  substring 0 len buf.

(** ** [RedisModule_StringToLongLong]: strict decimal [long long] *)

Definition ULLONG_MAX : Z := 2 ^ 64 - 1.
Definition LLONG_MAX : Z := 2 ^ 63 - 1.

Definition digit_of (a : ascii) : option Z :=
  let n := Z.of_N (N_of_ascii a) in
  if (48 <=? n) && (n <=? 57) then Some (n - 48) else None.

Fixpoint digits (s : string) (v : Z) : option Z :=
  match s with
  | EmptyString => Some v
  | String a r =>
      match digit_of a with
      | None => None
      | Some d =>
          if v >? ULLONG_MAX / 10 then None
          else if v * 10 >? ULLONG_MAX - d then None
          else digits r (v * 10 + d)
      end
  end.

Definition unsigned_part (p : string) : option Z :=
  match p with
  | EmptyString => None
  | String a r =>
      match digit_of a with
      | Some d => if 1 <=? d then digits r d else None
      | None => None
      end
  end.

Definition RedisModule_StringToLongLong (s : string) : option Z :=
  match s with
  | EmptyString => None
  | String "0" EmptyString => Some 0
  | String "-" p =>
      match unsigned_part p with
      | Some v => if v >? LLONG_MAX + 1 then None else Some (- v)
      | None => None
      end
  | _ =>
      match unsigned_part s with
      | Some v => if v >? LLONG_MAX then None else Some v
      | None => None
      end
  end.

(** ** C strings *)

Definition NUL : ascii := Ascii.zero.

(** [strlen]: the number of bytes before the first NUL. *)
Fixpoint strlen (s : string) : nat :=
  match s with
  | EmptyString => 0
  | String a r => if Ascii.eqb a NUL then 0 else S (strlen r)
  end.

(** ** Time *)

(** [d] milliseconds pass: every finite time to live shrinks by [d], and
    the entries whose time is over are gone. *)
Definition age (d : Z) (e : entry) : option entry :=
  match expire e with
  | None => Some e
  | Some t => if t - d <? 0 then None else Some (Entry (value e) (Some (t - d)))
  end.

Definition elapse (d : Z) (c : ctx) : ctx :=
  {| db := omap (age d) (db c); opened := opened c |}.

(** ** Replies *)

(** Which branch produced a string reply; both are the same
    [RedisModule_ReplyWithString] on the wire. *)
Inductive freshness := Fresh | Stale.

Inductive reply :=
| ReplyWrongArity
| ReplyWithError (msg : string)
| ReplyWithNull
| ReplyWithString (f : freshness) (v : string)
| ReplyWithSimpleString (s : string)
| ReplyUndefined.

(** Replying with a string whose pointer was never set is undefined. *)
Definition reply_string (f : freshness) (val : option string) : reply :=
  match val with
  | Some v => ReplyWithString f v
  | None => ReplyUndefined
  end.

(** The outcomes of the specification. *)
Definition Regenerate : reply := ReplyWithNull.
Definition FreshValue (v : string) : reply := ReplyWithString Fresh v.
Definition StaleValue (v : string) : reply := ReplyWithString Stale v.
Definition OK : reply := ReplyWithSimpleString "OK".

End Redis.

Import Redis.

Definition REGEN_LOCK_SUFFIX : string := ":regen_lock".

(** [sizeof(REGEN_LOCK_SUFFIX)]: the characters and the terminating NUL. *)
Definition sizeof_REGEN_LOCK_SUFFIX : Z := Z.of_nat (String.length REGEN_LOCK_SUFFIX) + 1.

(** ** The original module *)
Module Original.

(** The lock name of [TryAcquireLock] and of [CacheGuardSetCommand]: the
    buffer holds the key, the suffix and a NUL; the Redis string is cut
    at [strlen]. *)
Definition lockName (key : string) : string :=
  key +:+ REGEN_LOCK_SUFFIX +:+ String NUL EmptyString.

Definition lockKey (key : string) : string :=
  RedisModule_CreateString (lockName key) (strlen (lockName key)).

Definition TryAcquireLock (c : ctx) (key : string) (lockExpireMs : Z) : bool * ctx :=
  let '(lock, c) := RedisModule_OpenKey c (lockKey key) REDISMODULE_WRITE in
  if keytype_eqb (RedisModule_KeyType c lock) KEYTYPE_EMPTY then
    match RedisModule_StringSetNX c lock (RedisModule_CreateStringFromLongLong 1) with
    | (REDISMODULE_OK, c) =>
        let '(_, c) := RedisModule_SetExpire c lock lockExpireMs in
        (true, RedisModule_CloseKey c lock)
    | (REDISMODULE_ERR, c) => (false, RedisModule_CloseKey c lock)
    end
  else (false, RedisModule_CloseKey c lock).

Definition CacheGuardGetCommand (c : ctx) (argv : list string) : reply * ctx :=
  match argv with
  | [_; key; a2] =>
      match RedisModule_StringToLongLong a2 with
      | None => (ReplyWithError "ERR invalid grace period", c)
      | Some gracePeriodMs =>
          if gracePeriodMs <? 0 then (ReplyWithError "ERR invalid grace period", c)
          else
            let '(k, c) :=
              RedisModule_OpenKey c key (Z.lor REDISMODULE_READ REDISMODULE_WRITE) in
            if keytype_eqb (RedisModule_KeyType c k) KEYTYPE_EMPTY then
              (ReplyWithNull, RedisModule_CloseKey c k)
            else
              let ttl := RedisModule_GetExpire c k in
              let val := RedisModule_StringGet c k in
              if (ttl =? REDISMODULE_NO_EXPIRE) || (ttl >? gracePeriodMs) then
                (reply_string Fresh val, RedisModule_CloseKey c k)
              else
                let '(lockAcquired, c) := TryAcquireLock c key gracePeriodMs in
                if lockAcquired
                then (ReplyWithNull, RedisModule_CloseKey c k)
                else (reply_string Stale val, RedisModule_CloseKey c k)
      end
  | _ => (ReplyWrongArity, c)
  end.

Definition CacheGuardSetCommand (c : ctx) (argv : list string) : reply * ctx :=
  match argv with
  | [_; key; value; a3] =>
      match RedisModule_StringToLongLong a3 with
      | None => (ReplyWithError "ERR invalid expire time", c)
      | Some expire =>
          if expire <=? 0 then (ReplyWithError "ERR invalid expire time", c)
          else
            let '(k, c) := RedisModule_OpenKey c key REDISMODULE_WRITE in
            let '(_, c) := RedisModule_StringSet c k value in
            let '(_, c) := RedisModule_SetExpire c k expire in
            let c := RedisModule_CloseKey c k in
            let '(lock, c) := RedisModule_OpenKey c (lockKey key) REDISMODULE_WRITE in
            let '(_, c) := RedisModule_DeleteKey c lock in
            (OK, RedisModule_CloseKey c lock)
      end
  | _ => (ReplyWrongArity, c)
  end.

End Original.

(** ** The enhanced module *)
Module Enhanced.

Definition MAX_KEY_LENGTH : Z := 512.
Definition MIN_GRACE_PERIOD_MS : Z := 100.
Definition MAX_GRACE_PERIOD_MS : Z := 24 * 60 * 60 * 1000.
Definition MIN_EXPIRE_MS : Z := 1000.
Definition MAX_EXPIRE_MS : Z := 7 * 24 * 60 * 60 * 1000.

(** The static configuration record; the commands below read it, only
    [cache.guard.config SET] writes it (log level 0..3, lock duration
    1000..300000). *)
Record module_config_t :=
  { log_level : Z; default_grace_period : Z; max_lock_duration : Z }.

Definition module_config : module_config_t :=
  {| log_level := 1; default_grace_period := 5000; max_lock_duration := 30000 |}.

(** NULL ([None]) for an empty key and for a key longer than
    [MAX_KEY_LENGTH - sizeof(REGEN_LOCK_SUFFIX)]; otherwise the first
    [lockNameLen] bytes of the buffer that holds the key, the suffix and
    a NUL. *)
Definition CreateLockKey (key : string) : option string :=
  let len := Z.of_nat (String.length key) in
  if len =? 0 then None
  else if len >? MAX_KEY_LENGTH - sizeof_REGEN_LOCK_SUFFIX then None
  else
    let lockNameLen := len + sizeof_REGEN_LOCK_SUFFIX - 1 in
    let lockName := key +:+ REGEN_LOCK_SUFFIX +:+ String NUL EmptyString in
    Some (RedisModule_CreateString lockName (Z.to_nat lockNameLen)).

(** The result is the C [int]: [true] is 1 (acquired), [false] is 0. *)
Definition TryAcquireLock (cfg : module_config_t) (c : ctx) (key : string)
           (lockExpireMs : Z) : bool * ctx :=
  if (lockExpireMs <? MIN_GRACE_PERIOD_MS) || (lockExpireMs >? max_lock_duration cfg)
  then (false, c)
  else
    match CreateLockKey key with
    | None => (false, c)
    | Some lockKey =>
        let '(lock, c) := RedisModule_OpenKey c lockKey REDISMODULE_WRITE in
        match lock with
        | None => (false, c)
        | Some _ =>
            if keytype_eqb (RedisModule_KeyType c lock) KEYTYPE_EMPTY then
              let lockValue := RedisModule_CreateStringFromLongLong 1 in
              match RedisModule_StringSet c lock lockValue with
              | (REDISMODULE_OK, c) =>
                  match RedisModule_SetExpire c lock lockExpireMs with
                  | (REDISMODULE_OK, c) => (true, RedisModule_CloseKey c lock)
                  | (REDISMODULE_ERR, c) =>
                      let '(_, c) := RedisModule_DeleteKey c lock in
                      (false, RedisModule_CloseKey c lock)
                  end
              | (REDISMODULE_ERR, c) => (false, RedisModule_CloseKey c lock)
              end
            else (false, RedisModule_CloseKey c lock)
        end
    end.

Definition CacheGuardGetCommand (cfg : module_config_t) (c : ctx) (argv : list string)
  : reply * ctx :=
  match argv with
  | [_; key; a2] =>
      match RedisModule_StringToLongLong a2 with
      | None => (ReplyWithError "ERR invalid grace period format", c)
      | Some gracePeriodMs =>
          if (gracePeriodMs <? MIN_GRACE_PERIOD_MS) || (gracePeriodMs >? MAX_GRACE_PERIOD_MS)
          then (ReplyWithError "ERR grace period must be between 100ms and 24 hours", c)
          else
            let keyLen := Z.of_nat (String.length key) in
            if keyLen =? 0 then (ReplyWithError "ERR empty key not allowed", c)
            else if keyLen >? MAX_KEY_LENGTH then (ReplyWithError "ERR key too long", c)
            else
              let '(k, c) :=
                RedisModule_OpenKey c key (Z.lor REDISMODULE_READ REDISMODULE_WRITE) in
              match k with
              | None => (ReplyWithError "ERR failed to access key", c)
              | Some _ =>
                  match RedisModule_KeyType c k with
                  | KEYTYPE_EMPTY => (ReplyWithNull, RedisModule_CloseKey c k)
                  | KEYTYPE_OTHER =>
                      (ReplyWithError "ERR key contains non-string data",
                       RedisModule_CloseKey c k)
                  | KEYTYPE_STRING =>
                      let ttl := RedisModule_GetExpire c k in
                      match RedisModule_StringDMA c k with
                      | None =>
                          (ReplyWithError "ERR failed to read value",
                           RedisModule_CloseKey c k)
                      | Some valuePtr =>
                          let valueLen := String.length valuePtr in
                          let val := RedisModule_CreateString valuePtr valueLen in
                          if (ttl =? REDISMODULE_NO_EXPIRE) || (ttl >? gracePeriodMs) then
                            (ReplyWithString Fresh val, RedisModule_CloseKey c k)
                          else
                            let '(lockAcquired, c) :=
                              TryAcquireLock cfg c key gracePeriodMs in
                            let c := RedisModule_CloseKey c k in
                            if lockAcquired then (ReplyWithNull, c)
                            else (ReplyWithString Stale val, c)
                      end
                  end
              end
      end
  | _ => (ReplyWrongArity, c)
  end.

Definition CacheGuardSetCommand (c : ctx) (argv : list string) : reply * ctx :=
  match argv with
  | [_; key; value; a3] =>
      let keyLen := Z.of_nat (String.length key) in
      if keyLen =? 0 then (ReplyWithError "ERR empty key not allowed", c)
      else if keyLen >? MAX_KEY_LENGTH then (ReplyWithError "ERR key too long", c)
      else
        let valueLen := Z.of_nat (String.length value) in
        if valueLen >? 10 * 1024 * 1024 then (ReplyWithError "ERR value too large", c)
        else
          match RedisModule_StringToLongLong a3 with
          | None => (ReplyWithError "ERR invalid expire time format", c)
          | Some expire =>
              if (expire <? MIN_EXPIRE_MS) || (expire >? MAX_EXPIRE_MS)
              then (ReplyWithError "ERR expire time must be between 1 second and 7 days", c)
              else
                let '(k, c) := RedisModule_OpenKey c key REDISMODULE_WRITE in
                match k with
                | None => (ReplyWithError "ERR failed to access key", c)
                | Some _ =>
                    match RedisModule_StringSet c k value with
                    | (REDISMODULE_ERR, c) =>
                        (ReplyWithError "ERR failed to set value", RedisModule_CloseKey c k)
                    | (REDISMODULE_OK, c) =>
                        match RedisModule_SetExpire c k expire with
                        | (REDISMODULE_ERR, c) =>
                            (ReplyWithError "ERR failed to set expiration",
                             RedisModule_CloseKey c k)
                        | (REDISMODULE_OK, c) =>
                            let c := RedisModule_CloseKey c k in
                            match CreateLockKey key with
                            | None => (OK, c)
                            | Some lockKey =>
                                let '(lock, c) :=
                                  RedisModule_OpenKey c lockKey REDISMODULE_WRITE in
                                match lock with
                                | None => (OK, c)
                                | Some _ =>
                                    if negb (keytype_eqb (RedisModule_KeyType c lock)
                                                         KEYTYPE_EMPTY)
                                    then
                                      let '(_, c) := RedisModule_DeleteKey c lock in
                                      (OK, RedisModule_CloseKey c lock)
                                    else (OK, RedisModule_CloseKey c lock)
                                end
                            end
                        end
                    end
                end
          end
  | _ => (ReplyWrongArity, c)
  end.

End Enhanced.

(** ** Both modules behind one interface *)

Inductive variant := original | enhanced (cfg : Enhanced.module_config_t).

Definition get (V : variant) : ctx -> list string -> reply * ctx :=
  match V with
  | original => Original.CacheGuardGetCommand
  | enhanced cfg => Enhanced.CacheGuardGetCommand cfg
  end.

Definition set (V : variant) : ctx -> list string -> reply * ctx :=
  match V with
  | original => Original.CacheGuardSetCommand
  | enhanced _ => Enhanced.CacheGuardSetCommand
  end.

Definition acquire (V : variant) : ctx -> string -> Z -> bool * ctx :=
  match V with
  | original => Original.TryAcquireLock
  | enhanced cfg => Enhanced.TryAcquireLock cfg
  end.

(** The key under which a module keeps the regeneration lock of [key], if
    it derives one. *)
Definition lock_key (V : variant) (key : string) : option string :=
  match V with
  | original => Some (Original.lockKey key)
  | enhanced _ => Enhanced.CreateLockKey key
  end.

(** The lock record of [key] in the keyspace, as the module looks it up. *)
Definition lock_record (V : variant) (c : ctx) (key : string) : option entry :=
  match lock_key V key with
  | Some lk => db c !! lk
  | None => None
  end.

(** The argument checks of the two modules, as predicates. *)
Definition valid_grace (V : variant) (g : Z) : bool :=
  match V with
  | original => 0 <=? g
  | enhanced _ =>
      (Enhanced.MIN_GRACE_PERIOD_MS <=? g) && (g <=? Enhanced.MAX_GRACE_PERIOD_MS)
  end.

Definition grace_error (V : variant) : string :=
  match V with
  | original => "ERR invalid grace period"
  | enhanced _ => "ERR grace period must be between 100ms and 24 hours"
  end.

Definition valid_key (V : variant) (key : string) : bool :=
  match V with
  | original => true
  | enhanced _ =>
      let keyLen := Z.of_nat (String.length key) in
      negb (keyLen =? 0) && (keyLen <=? Enhanced.MAX_KEY_LENGTH)
  end.

Definition valid_value (V : variant) (value : string) : bool :=
  match V with
  | original => true
  | enhanced _ => Z.of_nat (String.length value) <=? 10 * 1024 * 1024
  end.

Definition valid_expire (V : variant) (ms : Z) : bool :=
  match V with
  | original => 0 <? ms
  | enhanced _ => (Enhanced.MIN_EXPIRE_MS <=? ms) && (ms <=? Enhanced.MAX_EXPIRE_MS)
  end.

(** Whether [TryAcquireLock] goes on to look at the lock record: always in
    the original module; in the enhanced one only for a duration between
    [MIN_GRACE_PERIOD_MS] and [max_lock_duration]. *)
Definition can_lock (V : variant) (key : string) (d : Z) : bool :=
  match V with
  | original => true
  | enhanced cfg =>
      (Enhanced.MIN_GRACE_PERIOD_MS <=? d) && (d <=? Enhanced.max_lock_duration cfg)
  end.

(** An entry is fresh for a grace period when it has no expiry or more
    time left than the grace period. *)
Definition fresh (e : option Z) (g : Z) : bool :=
  match e with
  | None => true
  | Some t => g <? t
  end.

(** The state in which a command finds the keyspace after it opened [name]. *)
Definition opening (name : string) (c : ctx) : ctx :=
  {| db := db c; opened := (opened c ++ [name])%list |}.

(** The lock record [TryAcquireLock] writes: the value 1, expiring after
    [d] milliseconds. *)
Definition lock_entry (d : Z) : entry :=
  Entry (VString "1")
        (if (d <? 0) || (d =? REDISMODULE_NO_EXPIRE) then None else Some d).

(** [gets] runs one get per caller, in the order in which the server
    executes them, at one instant. *)
Fixpoint gets (V : variant) (c : ctx) (key : string) (graces : list string)
  : list reply * ctx :=
  match graces with
  | [] => ([], c)
  | a :: rest =>
      let '(r, c) := get V c ["cache.guard.get"; key; a] in
      let '(rs, c) := gets V c key rest in
      (r :: rs, c)
  end.

(** A caller whose grace argument is accepted, lets [TryAcquireLock] look
    at the lock record, and finds an entry with [t] milliseconds left in
    its grace period. *)
Definition in_grace_call (V : variant) (key : string) (t : Z) (a : string) : bool :=
  match RedisModule_StringToLongLong a with
  | Some g => valid_grace V g && can_lock V key g && (0 <? t) && (t <=? g)
  | None => false
  end.

Definition is_regenerate (r : reply) : bool :=
  match r with ReplyWithNull => true | _ => false end.

Definition regenerations (rs : list reply) : nat :=
  length (filter (fun r => is_regenerate r = true) rs).

(** The C string held in a buffer: the bytes before the first NUL. *)
Definition c_str (buf : string) : string := substring 0 (strlen buf) buf.

Fixpoint has_NUL (s : string) : bool :=
  match s with
  | EmptyString => false
  | String a r => Ascii.eqb a NUL || has_NUL r
  end.

(** The keyspace a successful set leaves: the new entry, and no record
    under the lock key. *)
Definition after_set (V : variant) (c : ctx) (key value : string) (ms : Z) : ctx :=
  let m := <[key := Entry (VString value) (Some ms)]> (db c) in
  match lock_key V key with
  | Some lk => {| db := delete lk m; opened := ((opened c ++ [key]) ++ [lk])%list |}
  | None => {| db := m; opened := (opened c ++ [key])%list |}
  end.

(** The two answers of [TryAcquireLock]. *)
Definition Acquired : bool := true.
Definition NotAcquired : bool := false.

(** Keyspaces used in the examples: an entry with 50 ms left; an entry
    whose time is up while a regeneration is under way; an entry with
    50 ms left while a regeneration is under way. *)
Definition cache_in_grace : ctx :=
  {| db := <["k" := Entry (VString "v") (Some 50)]> ∅; opened := [] |}.

Definition cache_expired_locked : ctx :=
  {| db := <["k" := Entry (VString "old") (Some 0)]>
             (<["k:regen_lock" := Entry (VString "1") (Some 100)]> ∅);
     opened := [] |}.

Definition cache_in_grace_locked : ctx :=
  {| db := <["k" := Entry (VString "v") (Some 50)]>
             (<["k:regen_lock" := Entry (VString "1") (Some 100)]> ∅);
     opened := [] |}.

(** ** The first module: [cache.setsm] and [cache.getsm] *)
Module SM.

(** The expiry is not checked, and the answer of [RedisModule_SetExpire]
    is not read. *)
Definition CacheSetSMCommand (c : ctx) (argv : list string) : reply * ctx :=
  match argv with
  | [_; key; value; a3] =>
      match RedisModule_StringToLongLong a3 with
      | None => (ReplyWithError "ERR invalid expire time", c)
      | Some expire =>
          let '(k, c) := RedisModule_OpenKey c key REDISMODULE_WRITE in
          let '(_, c) := RedisModule_StringSet c k value in
          let '(_, c) := RedisModule_SetExpire c k expire in
          (OK, RedisModule_CloseKey c k)
      end
  | _ => (ReplyWrongArity, c)
  end.

Definition CacheGetSMCommand (c : ctx) (argv : list string) : reply * ctx :=
  match argv with
  | [_; key] =>
      let '(k, c) :=
        RedisModule_OpenKey c key (Z.lor REDISMODULE_READ REDISMODULE_WRITE) in
      if keytype_eqb (RedisModule_KeyType c k) KEYTYPE_EMPTY then (ReplyWithNull, c)
      else
        let ttl := RedisModule_GetExpire c k in
        if (ttl =? REDISMODULE_NO_EXPIRE) || (ttl >? 0) then
          let val := RedisModule_StringGet c k in
          (reply_string Fresh val, c)
        else
          let '(_, c) := RedisModule_DeleteKey c k in
          (ReplyWithNull, c)
  | _ => (ReplyWrongArity, c)
  end.

End SM.

(** ** The management commands of the enhanced module *)
Module Admin.

(** The replies of the management commands: those of the cache commands,
    and an integer. *)
Inductive reply :=
| Basic (r : Redis.reply)
| ReplyWithLongLong (n : Z).

(** [tolower] in the C locale. *)
Definition tolower (a : ascii) : ascii :=
  let n := N_of_ascii a in
  if (65 <=? n)%N && (n <=? 90)%N then ascii_of_N (n + 32) else a.

Fixpoint lower (s : string) : string :=
  match s with
  | EmptyString => EmptyString
  | String a r => String (tolower a) (lower r)
  end.

(** [strcasecmp(a, b) == 0]: the two C strings agree up to the case of
    their letters. *)
Definition strcasecmp_eq0 (a b : string) : bool :=
  String.eqb (lower (c_str a)) (lower (c_str b)).

Definition set_log_level (cfg : Enhanced.module_config_t) (v : Z)
  : Enhanced.module_config_t :=
  {| Enhanced.log_level := v;
     Enhanced.default_grace_period := Enhanced.default_grace_period cfg;
     Enhanced.max_lock_duration := Enhanced.max_lock_duration cfg |}.

Definition set_max_lock_duration (cfg : Enhanced.module_config_t) (v : Z)
  : Enhanced.module_config_t :=
  {| Enhanced.log_level := Enhanced.log_level cfg;
     Enhanced.default_grace_period := Enhanced.default_grace_period cfg;
     Enhanced.max_lock_duration := v |}.

(** The command reads and writes the configuration record, which is passed
    in and handed back. *)
Definition CacheGuardConfigCommand (cfg : Enhanced.module_config_t) (argv : list string)
  : reply * Enhanced.module_config_t :=
  match argv with
  | _ :: cmd :: rest =>
      if strcasecmp_eq0 cmd "GET" then
        match rest with
        | [param] =>
            if strcasecmp_eq0 param "log_level" then
              (ReplyWithLongLong (Enhanced.log_level cfg), cfg)
            else if strcasecmp_eq0 param "max_lock_duration" then
              (ReplyWithLongLong (Enhanced.max_lock_duration cfg), cfg)
            else (Basic (ReplyWithError "ERR unknown parameter"), cfg)
        | _ => (Basic ReplyWrongArity, cfg)
        end
      else if strcasecmp_eq0 cmd "SET" then
        match rest with
        | [param; a3] =>
            match RedisModule_StringToLongLong a3 with
            | None => (Basic (ReplyWithError "ERR invalid value"), cfg)
            | Some value =>
                if strcasecmp_eq0 param "log_level" then
                  if (value <? 0) || (value >? 3)
                  then (Basic (ReplyWithError "ERR log level must be 0-3"), cfg)
                  else (Basic OK, set_log_level cfg value)
                else if strcasecmp_eq0 param "max_lock_duration" then
                  if (value <? 1000) || (value >? 300000)
                  then (Basic (ReplyWithError "ERR max lock duration must be 1s-5m"), cfg)
                  else (Basic OK, set_max_lock_duration cfg value)
                else (Basic (ReplyWithError "ERR unknown parameter"), cfg)
            end
        | _ => (Basic ReplyWrongArity, cfg)
        end
      else (Basic (ReplyWithError "ERR unknown subcommand"), cfg)
  | _ => (Basic ReplyWrongArity, cfg)
  end.

Definition MODULE_VERSION : string := "1.0.1".

(** The length announced by [RedisModule_ReplyWithArray] and the elements
    that follow it. *)
Definition CacheGuardInfoCommand (cfg : Enhanced.module_config_t) : Z * list reply :=
  (8,
   [Basic (ReplyWithSimpleString "module");
    Basic (ReplyWithSimpleString "cacheguard");
    Basic (ReplyWithSimpleString "version");
    Basic (ReplyWithSimpleString MODULE_VERSION);
    Basic (ReplyWithSimpleString "max_key_length");
    ReplyWithLongLong Enhanced.MAX_KEY_LENGTH;
    Basic (ReplyWithSimpleString "max_lock_duration_ms");
    ReplyWithLongLong (Enhanced.max_lock_duration cfg)]).

(** The configuration after a sequence of [cache.guard.config] commands. *)
Definition configure (cfg : Enhanced.module_config_t) (cmds : list (list string))
  : Enhanced.module_config_t :=
  fold_left (fun cfg argv => snd (CacheGuardConfigCommand cfg argv)) cmds cfg.

(** The bounds the command enforces on what it stores. *)
Definition config_ok (cfg : Enhanced.module_config_t) : Prop :=
  0 <= Enhanced.log_level cfg <= 3 /\
  1000 <= Enhanced.max_lock_duration cfg <= 300000.

End Admin.

(** The expiry [RedisModule_SetExpire] leaves on a fresh string when asked
    for [ms] milliseconds: none when it refuses a negative time, and none
    for [REDISMODULE_NO_EXPIRE]. *)
Definition stored_expiry (ms : Z) : option Z :=
  if (ms <? 0) || (ms =? REDISMODULE_NO_EXPIRE) then None else Some ms.

(** A key of 501 bytes: within [MAX_KEY_LENGTH], and too long for a lock
    key. *)
Definition key_501 : string := string_of_list_ascii (repeat "a"%char 501).

(** * Strings *)

#[local] Arguments String.append !_ _ / : simpl nomatch.

Lemma substring_prefix (a b : string) : substring 0 (String.length a) (a +:+ b) = a.
Proof.
  induction a as [|x a IH]; simpl.
  - destruct b; reflexivity.
  - f_equal. exact IH.
Qed.

Lemma substring_whole (s : string) : substring 0 (String.length s) s = s.
Proof.
  induction s as [|x s IH]; simpl; [reflexivity | now f_equal].
Qed.

Lemma append_length (a b : string) :
  String.length (a +:+ b) = (String.length a + String.length b)%nat.
Proof. induction a; simpl; congruence. Qed.

Lemma append_inj_l (s a b : string) : a +:+ s = b +:+ s -> a = b.
Proof.
  revert b. induction a as [|x a IH]; intros [|y b] H; simpl in H.
  - reflexivity.
  - apply (f_equal String.length) in H. simpl in H. rewrite append_length in H. lia.
  - apply (f_equal String.length) in H. simpl in H. rewrite append_length in H. lia.
  - injection H as -> H. f_equal. now apply IH.
Qed.

Lemma append_ne_self (a s : string) : s <> EmptyString -> a +:+ s <> a.
Proof.
  intros Hs H. apply (f_equal String.length) in H. rewrite append_length in H.
  destruct s; [congruence | simpl in H; lia].
Qed.

Lemma c_str_cons (a : ascii) (r : string) :
  c_str (String a r) = if Ascii.eqb a NUL then EmptyString else String a (c_str r).
Proof. unfold c_str. simpl. destruct (Ascii.eqb a NUL); reflexivity. Qed.

Lemma c_str_append (k r : string) :
  has_NUL k = false -> c_str (k +:+ r) = k +:+ c_str r.
Proof.
  induction k as [|a k IH]; simpl; intros H; [reflexivity|].
  apply orb_false_iff in H as [Ha Hk]. rewrite c_str_cons, Ha. f_equal. now apply IH.
Qed.

Lemma c_str_append_ne (k r : string) :
  c_str r <> EmptyString -> c_str (k +:+ r) <> k.
Proof.
  intros Hr. induction k as [|a k IH]; simpl; [exact Hr|].
  rewrite c_str_cons. destruct (Ascii.eqb a NUL); [discriminate|].
  intros H. injection H as H. now apply IH.
Qed.

Lemma append_assoc (a b c : string) : (a +:+ b) +:+ c = a +:+ (b +:+ c).
Proof. induction a as [|x a IH]; simpl; [reflexivity | now f_equal]. Qed.

(** * The lock key *)

Lemma lockKey_c_str (key : string) :
  Original.lockKey key = c_str (key +:+ REGEN_LOCK_SUFFIX +:+ String NUL EmptyString).
Proof. reflexivity. Qed.

Lemma lockKey_ne (key : string) : Original.lockKey key <> key.
Proof. rewrite lockKey_c_str. apply c_str_append_ne. discriminate. Qed.

Lemma lockKey_no_NUL (key : string) :
  has_NUL key = false -> Original.lockKey key = key +:+ REGEN_LOCK_SUFFIX.
Proof. intros H. rewrite lockKey_c_str, c_str_append by exact H. reflexivity. Qed.

Lemma CreateLockKey_Some (key lk : string) :
  Enhanced.CreateLockKey key = Some lk ->
  lk = key +:+ REGEN_LOCK_SUFFIX /\ 1 <= Z.of_nat (String.length key) <= 500.
Proof.
  unfold Enhanced.CreateLockKey.
  destruct (Z.eqb_spec (Z.of_nat (String.length key)) 0) as [|Hne]; [discriminate|].
  destruct (Z.gtb_spec (Z.of_nat (String.length key))
              (Enhanced.MAX_KEY_LENGTH - sizeof_REGEN_LOCK_SUFFIX)) as [|Hle];
    [discriminate|].
  intros [= <-]. split.
  - unfold RedisModule_CreateString.
    replace (Z.to_nat (Z.of_nat (String.length key) + sizeof_REGEN_LOCK_SUFFIX - 1))
      with (String.length (key +:+ REGEN_LOCK_SUFFIX)).
    + change (substring 0 (String.length (key +:+ REGEN_LOCK_SUFFIX))
                (key +:+ (REGEN_LOCK_SUFFIX +:+ String NUL EmptyString))
              = key +:+ REGEN_LOCK_SUFFIX).
      rewrite <- append_assoc. apply substring_prefix.
    + rewrite append_length. unfold sizeof_REGEN_LOCK_SUFFIX. lia.
  - change (Enhanced.MAX_KEY_LENGTH - sizeof_REGEN_LOCK_SUFFIX) with 500 in Hle. lia.
Qed.

Lemma CreateLockKey_valid (key : string) :
  1 <= Z.of_nat (String.length key) <= 500 ->
  Enhanced.CreateLockKey key = Some (key +:+ REGEN_LOCK_SUFFIX).
Proof.
  intros H. destruct (Enhanced.CreateLockKey key) as [lk|] eqn:E.
  - apply CreateLockKey_Some in E as [-> _]. reflexivity.
  - unfold Enhanced.CreateLockKey in E.
    destruct (Z.eqb_spec (Z.of_nat (String.length key)) 0); [lia|].
    destruct (Z.gtb_spec (Z.of_nat (String.length key))
                (Enhanced.MAX_KEY_LENGTH - sizeof_REGEN_LOCK_SUFFIX)) as [Hgt|];
      [|discriminate].
    change (Enhanced.MAX_KEY_LENGTH - sizeof_REGEN_LOCK_SUFFIX) with 500 in Hgt. lia.
Qed.

Lemma CreateLockKey_ne (key lk : string) : Enhanced.CreateLockKey key = Some lk -> lk <> key.
Proof. intros H. apply CreateLockKey_Some in H as [-> _]. now apply append_ne_self. Qed.

(** On the keys it accepts, the enhanced derivation is one-to-one. *)
Lemma CreateLockKey_injective (k1 k2 lk : string) :
  Enhanced.CreateLockKey k1 = Some lk -> Enhanced.CreateLockKey k2 = Some lk -> k1 = k2.
Proof.
  intros H1 H2. apply CreateLockKey_Some in H1 as [-> _].
  apply CreateLockKey_Some in H2 as [H2 _]. now apply append_inj_l in H2.
Qed.

Lemma lock_key_ne (V : variant) (key lk : string) : lock_key V key = Some lk -> lk <> key.
Proof.
  destruct V; simpl.
  - intros [= <-]. apply lockKey_ne.
  - apply CreateLockKey_ne.
Qed.

(** * The lock *)

Lemma Original_TryAcquireLock_eq (c : ctx) (key : string) (d : Z) :
  Original.TryAcquireLock c key d =
  match db c !! Original.lockKey key with
  | Some _ => (false, opening (Original.lockKey key) c)
  | None =>
      (true, {| db := <[Original.lockKey key := lock_entry d]> (db c);
                opened := (opened c ++ [Original.lockKey key])%list |})
  end.
Proof.
  destruct c as [m ops]. unfold Original.TryAcquireLock, RedisModule_OpenKey, opening.
  simpl. destruct (m !! Original.lockKey key) as [[[s|] e]|] eqn:E; simpl; try reflexivity.
  unfold RedisModule_StringSetNX, RedisModule_StringSet. simpl. rewrite E. simpl.
  unfold RedisModule_SetExpire. simpl. rewrite lookup_insert_eq. simpl.
  unfold lock_entry, RedisModule_CloseKey.
  destruct (d <? 0) eqn:Hd, (d =? REDISMODULE_NO_EXPIRE) eqn:Hn; simpl;
    try rewrite insert_insert_eq; reflexivity.
Qed.

Lemma Enhanced_TryAcquireLock_eq (cfg : Enhanced.module_config_t) (c : ctx)
      (key : string) (d : Z) :
  Enhanced.TryAcquireLock cfg c key d =
  if (d <? Enhanced.MIN_GRACE_PERIOD_MS) || (d >? Enhanced.max_lock_duration cfg)
  then (false, c)
  else
    match Enhanced.CreateLockKey key with
    | None => (false, c)
    | Some lk =>
        match db c !! lk with
        | Some _ => (false, opening lk c)
        | None =>
            (true, {| db := <[lk := lock_entry d]> (db c);
                      opened := (opened c ++ [lk])%list |})
        end
    end.
Proof.
  unfold Enhanced.TryAcquireLock.
  destruct (d <? Enhanced.MIN_GRACE_PERIOD_MS) eqn:Hmin; [reflexivity|]. simpl.
  destruct (d >? Enhanced.max_lock_duration cfg); [reflexivity|].
  destruct (Enhanced.CreateLockKey key) as [lk|]; [|reflexivity].
  destruct c as [m ops]. unfold RedisModule_OpenKey, opening. simpl.
  destruct (m !! lk) as [[[s|] e]|] eqn:E; simpl; try reflexivity.
  unfold RedisModule_SetExpire. simpl. rewrite lookup_insert_eq. simpl.
  apply Z.ltb_ge in Hmin. unfold Enhanced.MIN_GRACE_PERIOD_MS in Hmin.
  unfold lock_entry.
  destruct (Z.ltb_spec d 0); [lia|].
  destruct (Z.eqb_spec d REDISMODULE_NO_EXPIRE) as [Hd|]; [unfold REDISMODULE_NO_EXPIRE in Hd; lia|].
  simpl. rewrite insert_insert_eq. reflexivity.
Qed.

(** Acquiring is decided by the lock record alone in the original module,
    and by the duration, the key and the lock record in the enhanced one. *)
Lemma acquire_eq (V : variant) (c : ctx) (key : string) (d : Z) :
  acquire V c key d =
  if can_lock V key d then
    match lock_key V key with
    | None => (false, c)
    | Some lk =>
        match db c !! lk with
        | Some _ => (false, opening lk c)
        | None =>
            (true, {| db := <[lk := lock_entry d]> (db c);
                      opened := (opened c ++ [lk])%list |})
        end
    end
  else (false, c).
Proof.
  destruct V as [|cfg]; simpl.
  - apply Original_TryAcquireLock_eq.
  - rewrite Enhanced_TryAcquireLock_eq. unfold can_lock.
    destruct (Z.ltb_spec d Enhanced.MIN_GRACE_PERIOD_MS),
      (Z.gtb_spec d (Enhanced.max_lock_duration cfg)),
      (Z.leb_spec Enhanced.MIN_GRACE_PERIOD_MS d),
      (Z.leb_spec d (Enhanced.max_lock_duration cfg)); simpl; try lia; reflexivity.
Qed.

(** * Get *)

(** What [RedisModule_GetExpire] reports decides as [fresh] does. *)
Lemma ttl_test (e : option Z) (g : Z) :
  0 <= g ->
  let ttl := match e with
             | None => REDISMODULE_NO_EXPIRE
             | Some t => if 0 <=? t then t else 0
             end in
  (ttl =? REDISMODULE_NO_EXPIRE) || (ttl >? g) = fresh e g.
Proof.
  intros Hg. destruct e as [t|]; simpl; [|reflexivity].
  unfold REDISMODULE_NO_EXPIRE.
  destruct (Z.leb_spec 0 t), (Z.ltb_spec g t);
    repeat match goal with
      | |- context [?a =? ?b] => destruct (Z.eqb_spec a b)
      | |- context [?a >? ?b] => destruct (Z.gtb_spec a b)
      end; simpl; try lia; reflexivity.
Qed.

Lemma Original_get_string (c : ctx) (cmd key a2 : string) (g : Z) (v : string)
      (e : option Z) :
  RedisModule_StringToLongLong a2 = Some g ->
  0 <= g ->
  db c !! key = Some (Entry (VString v) e) ->
  Original.CacheGuardGetCommand c [cmd; key; a2] =
  if fresh e g then (FreshValue v, opening key c)
  else
    let r := Original.TryAcquireLock (opening key c) key g in
    (if fst r then Regenerate else StaleValue v, snd r).
Proof.
  intros Hp Hg Hk. unfold Original.CacheGuardGetCommand. rewrite Hp.
  destruct (Z.ltb_spec g 0); [lia|].
  destruct c as [m ops]. simpl in Hk. unfold RedisModule_OpenKey, opening. simpl.
  rewrite Hk. simpl. rewrite (ttl_test e g Hg).
  destruct (fresh e g); [reflexivity|].
  destruct (Original.TryAcquireLock _ key g) as [[|] c']; reflexivity.
Qed.

Lemma Enhanced_get_string (cfg : Enhanced.module_config_t) (c : ctx)
      (cmd key a2 : string) (g : Z) (v : string) (e : option Z) :
  RedisModule_StringToLongLong a2 = Some g ->
  valid_grace (enhanced cfg) g = true ->
  valid_key (enhanced cfg) key = true ->
  db c !! key = Some (Entry (VString v) e) ->
  Enhanced.CacheGuardGetCommand cfg c [cmd; key; a2] =
  if fresh e g then (FreshValue v, opening key c)
  else
    let r := Enhanced.TryAcquireLock cfg (opening key c) key g in
    (if fst r then Regenerate else StaleValue v, snd r).
Proof.
  intros Hp Hg Hkey Hk. unfold Enhanced.CacheGuardGetCommand. rewrite Hp.
  simpl in Hg, Hkey. apply andb_true_iff in Hg as [Hg1 Hg2].
  apply andb_true_iff in Hkey as [Hk1 Hk2].
  apply Z.leb_le in Hg1, Hg2, Hk2. apply negb_true_iff in Hk1.
  destruct (Z.ltb_spec g Enhanced.MIN_GRACE_PERIOD_MS); [lia|].
  destruct (Z.gtb_spec g Enhanced.MAX_GRACE_PERIOD_MS); [lia|]. simpl.
  rewrite Hk1. destruct (Z.gtb_spec (Z.of_nat (String.length key)) Enhanced.MAX_KEY_LENGTH);
    [lia|].
  destruct c as [m ops]. simpl in Hk. unfold RedisModule_OpenKey, opening. simpl.
  rewrite Hk. simpl. rewrite (ttl_test e g) by (unfold Enhanced.MIN_GRACE_PERIOD_MS in *; lia).
  unfold RedisModule_CreateString. rewrite substring_whole.
  destruct (fresh e g); [reflexivity|].
  destruct (Enhanced.TryAcquireLock cfg _ key g) as [[|] c']; reflexivity.
Qed.

(** On an entry that holds a string, get answers with the value when the
    entry is fresh, and otherwise lets the lock decide. *)
Lemma get_string (V : variant) (c : ctx) (cmd key a2 : string) (g : Z) (v : string)
      (e : option Z) :
  RedisModule_StringToLongLong a2 = Some g ->
  valid_grace V g = true ->
  valid_key V key = true ->
  db c !! key = Some (Entry (VString v) e) ->
  get V c [cmd; key; a2] =
  if fresh e g then (FreshValue v, opening key c)
  else
    let r := acquire V (opening key c) key g in
    (if fst r then Regenerate else StaleValue v, snd r).
Proof.
  destruct V as [|cfg].
  - intros Hp Hg _ Hk. apply Original_get_string; [exact Hp | now apply Z.leb_le | exact Hk].
  - exact (Enhanced_get_string cfg c cmd key a2 g v e).
Qed.

(** C1, as the specification states it, fails: an entry whose time is up is
    served as a stale value while another caller holds the lock. *)
Lemma C1_counterexample :
  db cache_expired_locked !! "k" = Some (Entry (VString "old") (Some 0)) /\
  fst (get original cache_expired_locked ["cache.guard.get"; "k"; "100"])
    = StaleValue "old" /\
  fst (get (enhanced Enhanced.module_config) cache_expired_locked
           ["cache.guard.get"; "k"; "100"])
    = StaleValue "old" /\
  StaleValue "old" <> Regenerate.
Proof. repeat split; [vm_compute; reflexivity .. | discriminate]. Qed.

(** C1, amended: an existing entry whose remaining time to live is zero or
    less is handled like an entry in its grace period. Get answers
    Regenerate exactly when this call acquires the regeneration lock, and
    otherwise answers with the old value as a stale value; it never
    answers with it as a fresh value. *)
Theorem C1_expired_entry_goes_through_lock (V : variant) (c : ctx)
        (cmd key a2 : string) (g : Z) (v : string) (t : Z) :
  RedisModule_StringToLongLong a2 = Some g ->
  valid_grace V g = true ->
  valid_key V key = true ->
  db c !! key = Some (Entry (VString v) (Some t)) ->
  t <= 0 ->
  let r := acquire V (opening key c) key g in
  get V c [cmd; key; a2] = (if fst r then Regenerate else StaleValue v, snd r) /\
  fst (get V c [cmd; key; a2]) <> FreshValue v.
Proof.
  intros Hp Hg Hkey Hk Ht r.
  assert (Hg0 : 0 <= g).
  { destruct V; simpl in Hg.
    - now apply Z.leb_le.
    - apply andb_true_iff in Hg as [Hg _]. apply Z.leb_le in Hg.
      unfold Enhanced.MIN_GRACE_PERIOD_MS in Hg. lia. }
  rewrite (get_string V c cmd key a2 g v (Some t) Hp Hg Hkey Hk). simpl.
  destruct (Z.ltb_spec g t); [lia|]. fold r. split; [reflexivity|].
  simpl. destruct (fst r); discriminate.
Qed.

Lemma C1_witness :
  get original cache_expired_locked ["cache.guard.get"; "k"; "100"]
  = (StaleValue "old", opening "k:regen_lock" (opening "k" cache_expired_locked)).
Proof.
  apply (C1_expired_entry_goes_through_lock original cache_expired_locked
           "cache.guard.get" "k" "100" 100 "old" 0);
    [reflexivity | reflexivity | reflexivity | reflexivity | lia].
Defined.

(** C10: an existing entry is answered as a fresh value exactly when it has
    no expiry or its remaining time to live is strictly greater than the
    grace period; when the remaining time equals the grace period the
    entry is in grace, that is, the lock decides the answer. *)
Theorem C10_grace_window_boundary (V : variant) (c : ctx) (cmd key a2 : string)
        (g : Z) (v : string) (e : option Z) :
  RedisModule_StringToLongLong a2 = Some g ->
  valid_grace V g = true ->
  valid_key V key = true ->
  db c !! key = Some (Entry (VString v) e) ->
  (fst (get V c [cmd; key; a2]) = FreshValue v <->
   e = None \/ exists t, e = Some t /\ g < t) /\
  (e = Some g ->
   let r := acquire V (opening key c) key g in
   get V c [cmd; key; a2] = (if fst r then Regenerate else StaleValue v, snd r)).
Proof.
  intros Hp Hg Hkey Hk.
  rewrite (get_string V c cmd key a2 g v e Hp Hg Hkey Hk). split.
  - destruct e as [t|]; simpl.
    + destruct (Z.ltb_spec g t); simpl.
      * split; [intros _; right; exists t; split; [reflexivity | assumption] | reflexivity].
      * split.
        -- destruct (fst (acquire V (opening key c) key g)); discriminate.
        -- intros [Hn | [t' [[= <-] Hlt]]]; [discriminate | lia].
    + split; [intros _; left; reflexivity | reflexivity].
  - intros ->. simpl. rewrite Z.ltb_irrefl. reflexivity.
Qed.

Lemma C10_witness :
  fst (get (enhanced Enhanced.module_config)
           {| db := <["k" := Entry (VString "v") (Some 100)]> ∅; opened := [] |}
           ["cache.guard.get"; "k"; "100"])
  = Regenerate.
Proof.
  refine (f_equal fst
            (proj2 (C10_grace_window_boundary (enhanced Enhanced.module_config)
                      {| db := <["k" := Entry (VString "v") (Some 100)]> ∅; opened := [] |}
                      "cache.guard.get" "k" "100" 100 "v" (Some 100) _ _ _ _) _));
    reflexivity.
Defined.

(** C3: in the enhanced module, a grace period above [max_lock_duration]
    (and within the accepted bounds) makes get answer with the stale value
    for every entry in grace or past its time, whether or not a lock
    exists; the keyspace is left as it was and no lock is written. *)
Theorem C3_long_grace_never_regenerates (cfg : Enhanced.module_config_t) (c : ctx)
        (cmd key a2 : string) (g : Z) (v : string) (t : Z) :
  RedisModule_StringToLongLong a2 = Some g ->
  valid_grace (enhanced cfg) g = true ->
  Enhanced.max_lock_duration cfg < g ->
  valid_key (enhanced cfg) key = true ->
  db c !! key = Some (Entry (VString v) (Some t)) ->
  t <= g ->
  get (enhanced cfg) c [cmd; key; a2] = (StaleValue v, opening key c) /\
  fst (Enhanced.TryAcquireLock cfg (opening key c) key g) = NotAcquired.
Proof.
  intros Hp Hg Hmax Hkey Hk Ht.
  rewrite (get_string (enhanced cfg) c cmd key a2 g v (Some t) Hp Hg Hkey Hk). simpl.
  destruct (Z.ltb_spec g t); [lia|].
  rewrite Enhanced_TryAcquireLock_eq.
  destruct (Z.gtb_spec g (Enhanced.max_lock_duration cfg)); [|lia].
  rewrite orb_true_r. split; reflexivity.
Qed.

Lemma C3_witness :
  get (enhanced Enhanced.module_config) cache_in_grace ["cache.guard.get"; "k"; "60000"]
  = (StaleValue "v", opening "k" cache_in_grace).
Proof.
  apply (C3_long_grace_never_regenerates Enhanced.module_config cache_in_grace
           "cache.guard.get" "k" "60000" 60000 "v" 50);
    [reflexivity | reflexivity | reflexivity | reflexivity | reflexivity | lia].
Defined.

(** C6: a grace period outside the bounds of the module is answered with
    the grace period error before any key is opened; the keyspace and the
    list of opened keys are as before. *)
Theorem C6_grace_out_of_range (V : variant) (c : ctx) (cmd key a2 : string) (g : Z) :
  RedisModule_StringToLongLong a2 = Some g ->
  valid_grace V g = false ->
  get V c [cmd; key; a2] = (ReplyWithError (grace_error V), c).
Proof.
  intros Hp Hg. destruct V as [|cfg]; simpl in *.
  - unfold Original.CacheGuardGetCommand. rewrite Hp.
    destruct (Z.ltb_spec g 0); [reflexivity|]. apply Z.leb_gt in Hg. lia.
  - unfold Enhanced.CacheGuardGetCommand. rewrite Hp.
    destruct (Z.ltb_spec g Enhanced.MIN_GRACE_PERIOD_MS); [reflexivity|].
    destruct (Z.gtb_spec g Enhanced.MAX_GRACE_PERIOD_MS); [reflexivity|].
    apply andb_false_iff in Hg as [Hg | Hg]; apply Z.leb_gt in Hg; lia.
Qed.

Lemma C6_witness :
  get (enhanced Enhanced.module_config) cache_in_grace ["cache.guard.get"; "k"; "50"]
  = (ReplyWithError "ERR grace period must be between 100ms and 24 hours", cache_in_grace).
Proof.
  apply (C6_grace_out_of_range (enhanced Enhanced.module_config) cache_in_grace
           "cache.guard.get" "k" "50" 50); reflexivity.
Defined.

(** C7, as the specification states it, fails: in the enhanced module a
    lock duration outside the bounds gets the plain answer 0, the answer
    a held lock gets, and get serves the stale value; the original module
    takes the lock with any duration. *)
Lemma C7_counterexample :
  Enhanced.TryAcquireLock Enhanced.module_config cache_in_grace "k" 50
    = (NotAcquired, cache_in_grace) /\
  Enhanced.TryAcquireLock Enhanced.module_config cache_in_grace "k" 60000
    = (NotAcquired, cache_in_grace) /\
  fst (Enhanced.TryAcquireLock Enhanced.module_config cache_in_grace_locked "k" 5000)
    = NotAcquired /\
  fst (get (enhanced Enhanced.module_config) cache_in_grace
           ["cache.guard.get"; "k"; "60000"]) = StaleValue "v" /\
  fst (Original.TryAcquireLock cache_in_grace "k" 50) = Acquired.
Proof. repeat split; vm_compute; reflexivity. Qed.

(** C7, amended: for a lock duration below [MIN_GRACE_PERIOD_MS] or above
    [max_lock_duration] the enhanced [TryAcquireLock] answers 0, not
    acquired, without opening any key; no separate error answer exists. *)
Theorem C7_invalid_lock_duration_not_acquired (cfg : Enhanced.module_config_t)
        (c : ctx) (key : string) (d : Z) :
  d < Enhanced.MIN_GRACE_PERIOD_MS \/ Enhanced.max_lock_duration cfg < d ->
  Enhanced.TryAcquireLock cfg c key d = (NotAcquired, c).
Proof.
  intros H. unfold Enhanced.TryAcquireLock.
  destruct (Z.ltb_spec d Enhanced.MIN_GRACE_PERIOD_MS); [reflexivity|].
  destruct (Z.gtb_spec d (Enhanced.max_lock_duration cfg)); [reflexivity|]. lia.
Qed.

Lemma C7_witness :
  Enhanced.TryAcquireLock Enhanced.module_config cache_in_grace "k" 50
  = (NotAcquired, cache_in_grace).
Proof.
  apply (C7_invalid_lock_duration_not_acquired Enhanced.module_config cache_in_grace "k" 50).
  left. reflexivity.
Defined.

(** * Set *)

Lemma Original_set_valid (c : ctx) (cmd key value a3 : string) (ms : Z) :
  RedisModule_StringToLongLong a3 = Some ms ->
  0 < ms ->
  Original.CacheGuardSetCommand c [cmd; key; value; a3]
  = (OK, after_set original c key value ms).
Proof.
  intros Hp Hms. unfold Original.CacheGuardSetCommand. rewrite Hp.
  destruct (Z.leb_spec ms 0); [lia|].
  destruct c as [m ops]. unfold RedisModule_OpenKey, after_set. simpl.
  unfold RedisModule_SetExpire. simpl. rewrite lookup_insert_eq. simpl.
  destruct (Z.ltb_spec ms 0); [lia|]. simpl.
  destruct (Z.eqb_spec ms REDISMODULE_NO_EXPIRE) as [E|];
    [unfold REDISMODULE_NO_EXPIRE in E; lia|].
  rewrite insert_insert_eq. reflexivity.
Qed.

Lemma Enhanced_set_valid (cfg : Enhanced.module_config_t) (c : ctx)
      (cmd key value a3 : string) (ms : Z) :
  RedisModule_StringToLongLong a3 = Some ms ->
  valid_key (enhanced cfg) key = true ->
  valid_value (enhanced cfg) value = true ->
  valid_expire (enhanced cfg) ms = true ->
  Enhanced.CacheGuardSetCommand c [cmd; key; value; a3]
  = (OK, after_set (enhanced cfg) c key value ms).
Proof.
  intros Hp Hkey Hval Hms. unfold Enhanced.CacheGuardSetCommand.
  simpl in Hkey, Hval, Hms.
  apply andb_true_iff in Hkey as [Hk1 Hk2]. apply negb_true_iff in Hk1.
  apply andb_true_iff in Hms as [Hm1 Hm2]. apply Z.leb_le in Hk2, Hval, Hm1, Hm2.
  rewrite Hk1.
  destruct (Z.gtb_spec (Z.of_nat (String.length key)) Enhanced.MAX_KEY_LENGTH); [lia|].
  destruct (Z.gtb_spec (Z.of_nat (String.length value)) (10 * 1024 * 1024)); [lia|].
  rewrite Hp.
  destruct (Z.ltb_spec ms Enhanced.MIN_EXPIRE_MS); [lia|].
  destruct (Z.gtb_spec ms Enhanced.MAX_EXPIRE_MS); [lia|].
  unfold Enhanced.MIN_EXPIRE_MS in *.
  destruct c as [m ops]. unfold RedisModule_OpenKey, after_set. simpl.
  unfold RedisModule_SetExpire. simpl. rewrite lookup_insert_eq. simpl.
  destruct (Z.ltb_spec ms 0); [lia|]. simpl.
  destruct (Z.eqb_spec ms REDISMODULE_NO_EXPIRE) as [E|];
    [unfold REDISMODULE_NO_EXPIRE in E; lia|].
  rewrite insert_insert_eq.
  destruct (Enhanced.CreateLockKey key) as [lk|]; [|reflexivity]. simpl.
  destruct (<[key := Entry (VString value) (Some ms)]> m !! lk) as [[[s|] e]|] eqn:E;
    simpl; try reflexivity.
  rewrite delete_id by exact E. reflexivity.
Qed.

Lemma set_valid (V : variant) (c : ctx) (cmd key value a3 : string) (ms : Z) :
  RedisModule_StringToLongLong a3 = Some ms ->
  valid_key V key = true ->
  valid_value V value = true ->
  valid_expire V ms = true ->
  set V c [cmd; key; value; a3] = (OK, after_set V c key value ms).
Proof.
  destruct V as [|cfg].
  - intros Hp _ _ Hms. apply Original_set_valid; [exact Hp | now apply Z.ltb_lt].
  - exact (Enhanced_set_valid cfg c cmd key value a3 ms).
Qed.

(** Set answers OK only when every argument passed its check. *)
Lemma set_OK_inv (V : variant) (c : ctx) (cmd key value a3 : string) :
  fst (set V c [cmd; key; value; a3]) = OK ->
  exists ms, RedisModule_StringToLongLong a3 = Some ms /\
             valid_key V key = true /\ valid_value V value = true /\
             valid_expire V ms = true.
Proof.
  destruct V as [|cfg]; simpl.
  - unfold Original.CacheGuardSetCommand.
    destruct (RedisModule_StringToLongLong a3) as [ms|]; [|discriminate].
    destruct (Z.leb_spec ms 0); [discriminate|]. intros _. exists ms.
    repeat split. now apply Z.ltb_lt.
  - unfold Enhanced.CacheGuardSetCommand.
    destruct (Z.of_nat (String.length key) =? 0) eqn:Hk1; [discriminate|].
    destruct (Z.gtb_spec (Z.of_nat (String.length key)) Enhanced.MAX_KEY_LENGTH);
      [discriminate|].
    destruct (Z.gtb_spec (Z.of_nat (String.length value)) (10 * 1024 * 1024));
      [discriminate|].
    destruct (RedisModule_StringToLongLong a3) as [ms|]; [|discriminate].
    destruct (Z.ltb_spec ms Enhanced.MIN_EXPIRE_MS); [discriminate|].
    destruct (Z.gtb_spec ms Enhanced.MAX_EXPIRE_MS); [discriminate|].
    intros _. exists ms. split; [reflexivity|]. split; [|split].
    + apply andb_true_iff. split; [reflexivity | now apply Z.leb_le].
    + now apply Z.leb_le.
    + apply andb_true_iff. split; now apply Z.leb_le.
Qed.

Lemma after_set_entry (V : variant) (c : ctx) (key value : string) (ms : Z) :
  db (after_set V c key value ms) !! key = Some (Entry (VString value) (Some ms)).
Proof.
  unfold after_set. destruct (lock_key V key) as [lk|] eqn:E; simpl.
  - rewrite lookup_delete_ne by (apply (lock_key_ne V key lk E)). apply lookup_insert_eq.
  - apply lookup_insert_eq.
Qed.

Lemma after_set_lock (V : variant) (c : ctx) (key value : string) (ms : Z) :
  lock_record V (after_set V c key value ms) key = None.
Proof.
  unfold lock_record, after_set. destruct (lock_key V key) as [lk|]; simpl;
    [apply lookup_delete_eq | reflexivity].
Qed.

(** C8: when set answers OK, the keyspace it leaves holds no regeneration
    lock for the key. *)
Theorem C8_set_releases_lock (V : variant) (c : ctx) (cmd key value a3 : string) :
  fst (set V c [cmd; key; value; a3]) = OK ->
  lock_record V (snd (set V c [cmd; key; value; a3])) key = None.
Proof.
  intros H. apply set_OK_inv in H as (ms & Hp & Hk & Hv & Hms).
  rewrite (set_valid V c cmd key value a3 ms Hp Hk Hv Hms). apply after_set_lock.
Qed.

Lemma C8_witness :
  lock_record (enhanced Enhanced.module_config) cache_in_grace_locked "k"
    = Some (Entry (VString "1") (Some 100)) /\
  lock_record (enhanced Enhanced.module_config)
    (snd (set (enhanced Enhanced.module_config) cache_in_grace_locked
              ["cache.guard.set"; "k"; "payload"; "60000"])) "k" = None.
Proof.
  split; [reflexivity|].
  apply (C8_set_releases_lock (enhanced Enhanced.module_config) cache_in_grace_locked
           "cache.guard.set" "k" "payload" "60000").
  reflexivity.
Defined.

(** C9: after set of a value, a get issued while more time is left than its
    grace period answers with that value, as a fresh value. *)
Theorem C9_set_get_round_trip (V : variant) (c : ctx) (cmd cmd' key value a3 a2 : string)
        (ttl g d : Z) :
  RedisModule_StringToLongLong a3 = Some ttl ->
  valid_key V key = true ->
  valid_value V value = true ->
  valid_expire V ttl = true ->
  RedisModule_StringToLongLong a2 = Some g ->
  valid_grace V g = true ->
  0 <= d ->
  g < ttl - d ->
  let r := set V c [cmd; key; value; a3] in
  fst r = OK /\
  fst (get V (elapse d (snd r)) [cmd'; key; a2]) = FreshValue value.
Proof.
  intros Hp Hk Hv Hms Hp2 Hg Hd Hlt r. subst r.
  rewrite (set_valid V c cmd key value a3 ttl Hp Hk Hv Hms). simpl.
  split; [reflexivity|].
  assert (Hg0 : 0 <= g).
  { destruct V; simpl in Hg.
    - now apply Z.leb_le.
    - apply andb_true_iff in Hg as [Hg _]. apply Z.leb_le in Hg.
      unfold Enhanced.MIN_GRACE_PERIOD_MS in Hg. lia. }
  rewrite (get_string V _ cmd' key a2 g value (Some (ttl - d)) Hp2 Hg Hk).
  - simpl. destruct (Z.ltb_spec g (ttl - d)); [reflexivity | lia].
  - unfold elapse. simpl. rewrite lookup_omap, after_set_entry. simpl.
    unfold age. simpl. destruct (Z.ltb_spec (ttl - d) 0); [lia | reflexivity].
Qed.

Lemma C9_witness :
  fst (get (enhanced Enhanced.module_config)
         (elapse 900
            (snd (set (enhanced Enhanced.module_config) cache_in_grace_locked
                      ["cache.guard.set"; "k"; "payload"; "60000"])))
         ["cache.guard.get"; "k"; "100"])
  = FreshValue "payload".
Proof.
  apply (C9_set_get_round_trip (enhanced Enhanced.module_config) cache_in_grace_locked
           "cache.guard.set" "cache.guard.get" "k" "payload" "60000" "100" 60000 100 900);
    [reflexivity | reflexivity | reflexivity | reflexivity | reflexivity | reflexivity
    | lia | lia].
Defined.

(** * The lock protocol *)

(** C4: [TryAcquireLock] answers acquired exactly when this call created
    the lock record; when a lock record is already there it answers not
    acquired and the keyspace, the record included, is as before. *)
Theorem C4_acquired_iff_created (V : variant) (c : ctx) (key : string) (d : Z) :
  let r := acquire V c key d in
  (fst r = Acquired <->
   lock_record V c key = None /\ lock_record V (snd r) key = Some (lock_entry d)) /\
  (forall e, lock_record V c key = Some e -> fst r = NotAcquired /\ db (snd r) = db c).
Proof.
  intros r. subst r. rewrite acquire_eq. unfold lock_record, Acquired, NotAcquired.
  destruct (can_lock V key d); simpl.
  - destruct (lock_key V key) as [lk|]; simpl.
    + destruct (db c !! lk) as [e0|] eqn:E; simpl.
      * split.
        -- split; [discriminate | intros [? _]; discriminate].
        -- intros e _. split; reflexivity.
      * split.
        -- rewrite lookup_insert_eq. split; [intros _; split; reflexivity | reflexivity].
        -- intros e He. discriminate.
    + split.
      * split; [discriminate | intros [_ ?]; discriminate].
      * intros e He. discriminate.
  - split.
    + split; [discriminate|]. intros [H1 H2]. destruct (lock_key V key); congruence.
    + intros e _. split; reflexivity.
Qed.

Lemma C4_witness :
  fst (acquire original cache_in_grace_locked "k" 5000) = NotAcquired /\
  db (snd (acquire original cache_in_grace_locked "k" 5000)) = db cache_in_grace_locked.
Proof.
  apply (proj2 (C4_acquired_iff_created original cache_in_grace_locked "k" 5000)
           (Entry (VString "1") (Some 100))).
  reflexivity.
Defined.

(** A get that finds the lock taken answers with the stale value and
    leaves the keyspace as it was. *)
Lemma get_locked (V : variant) (c : ctx) (key a lk v : string) (t : Z) :
  in_grace_call V key t a = true ->
  valid_key V key = true ->
  lock_key V key = Some lk ->
  db c !! key = Some (Entry (VString v) (Some t)) ->
  is_Some (db c !! lk) ->
  fst (get V c ["cache.guard.get"; key; a]) = StaleValue v /\
  db (snd (get V c ["cache.guard.get"; key; a])) = db c.
Proof.
  unfold in_grace_call. destruct (RedisModule_StringToLongLong a) as [g|] eqn:Hp;
    [|discriminate].
  intros H Hkey Hlk Hk [e He].
  apply andb_true_iff in H as [H Ht2]. apply andb_true_iff in H as [H Ht1].
  apply andb_true_iff in H as [Hg Hcan]. apply Z.leb_le in Ht2.
  rewrite (get_string V c "cache.guard.get" key a g v (Some t) Hp Hg Hkey Hk). simpl.
  destruct (Z.ltb_spec g t); [lia|].
  rewrite acquire_eq, Hcan, Hlk. simpl. rewrite He. split; reflexivity.
Qed.

Lemma gets_locked (V : variant) (key lk v : string) (t : Z) (graces : list string) :
  valid_key V key = true ->
  lock_key V key = Some lk ->
  forallb (in_grace_call V key t) graces = true ->
  forall c,
    db c !! key = Some (Entry (VString v) (Some t)) ->
    is_Some (db c !! lk) ->
    fst (gets V c key graces) = repeat (StaleValue v) (length graces).
Proof.
  intros Hkey Hlk. induction graces as [|a rest IH]; intros Hall c Hk Hl; [reflexivity|].
  simpl in Hall. apply andb_true_iff in Hall as [Ha Hrest].
  destruct (get_locked V c key a lk v t Ha Hkey Hlk Hk Hl) as [Hr Hdb].
  simpl. destruct (get V c ["cache.guard.get"; key; a]) as [r c1]. simpl in Hr, Hdb.
  specialize (IH Hrest c1). rewrite Hdb in IH. specialize (IH Hk Hl).
  destruct (gets V c1 key rest) as [rs c2]. simpl in *. now subst.
Qed.

Lemma regenerations_stale (v : string) (n : nat) :
  regenerations (repeat (StaleValue v) n) = 0%nat.
Proof. induction n; [reflexivity | exact IHn]. Qed.

(** C2, as the specification states it, fails: while a regeneration is
    under way no caller acquires the lock, and with a grace period above
    [max_lock_duration] no caller of the enhanced module ever does. *)
Lemma C2_counterexample :
  fst (gets original cache_in_grace_locked "k" ["100"; "100"])
    = [StaleValue "v"; StaleValue "v"] /\
  regenerations (fst (gets original cache_in_grace_locked "k" ["100"; "100"])) = 0%nat /\
  lock_record (enhanced Enhanced.module_config) cache_in_grace "k" = None /\
  fst (gets (enhanced Enhanced.module_config) cache_in_grace "k" ["60000"; "60000"])
    = [StaleValue "v"; StaleValue "v"].
Proof. repeat split; vm_compute; reflexivity. Qed.

(** C2, amended: when no lock record exists for the key, and every caller
    passes a grace period with which the module can take the lock, then of
    the gets that find the entry in grace the first one acquires the lock
    and is answered Regenerate, and every other one is answered with the
    stored value as a stale value. *)
Theorem C2_one_regeneration (V : variant) (c : ctx) (key lk v : string) (t : Z)
        (graces : list string) :
  valid_key V key = true ->
  lock_key V key = Some lk ->
  db c !! key = Some (Entry (VString v) (Some t)) ->
  db c !! lk = None ->
  graces <> [] ->
  forallb (in_grace_call V key t) graces = true ->
  fst (gets V c key graces) = Regenerate :: repeat (StaleValue v) (length graces - 1) /\
  regenerations (fst (gets V c key graces)) = 1%nat.
Proof.
  intros Hkey Hlk Hk Hl Hne Hall. destruct graces as [|a rest]; [congruence|].
  simpl in Hall. apply andb_true_iff in Hall as [Ha Hrest].
  assert (Hget : get V c ["cache.guard.get"; key; a]
                 = (Regenerate,
                    {| db := <[lk := lock_entry
                                       (default 0 (RedisModule_StringToLongLong a))]>
                               (db c);
                       opened := ((opened c ++ [key]) ++ [lk])%list |})).
  { unfold in_grace_call in Ha.
    destruct (RedisModule_StringToLongLong a) as [g|] eqn:Hp; [|discriminate].
    apply andb_true_iff in Ha as [Ha Ht2]. apply andb_true_iff in Ha as [Ha Ht1].
    apply andb_true_iff in Ha as [Hg Hcan]. apply Z.leb_le in Ht2.
    rewrite (get_string V c "cache.guard.get" key a g v (Some t) Hp Hg Hkey Hk). simpl.
    destruct (Z.ltb_spec g t); [lia|].
    rewrite acquire_eq, Hcan, Hlk. simpl. rewrite Hl. reflexivity. }
  simpl. rewrite Hget.
  pose proof (gets_locked V key lk v t rest Hkey Hlk Hrest
                {| db := <[lk := lock_entry (default 0 (RedisModule_StringToLongLong a))]>
                           (db c);
                   opened := ((opened c ++ [key]) ++ [lk])%list |}) as Hrs.
  simpl in Hrs. rewrite lookup_insert_ne in Hrs by (apply (lock_key_ne V key lk Hlk)).
  rewrite lookup_insert_eq in Hrs. specialize (Hrs Hk (ltac:(eexists; reflexivity))).
  destruct (gets V _ key rest) as [rs c2]. simpl in *. subst rs.
  rewrite Nat.sub_0_r. split; [reflexivity|].
  unfold regenerations. simpl. f_equal. apply regenerations_stale.
Qed.

Lemma C2_witness :
  fst (gets (enhanced Enhanced.module_config) cache_in_grace "k" ["100"; "200"; "100"])
  = [Regenerate; StaleValue "v"; StaleValue "v"].
Proof.
  apply (C2_one_regeneration (enhanced Enhanced.module_config) cache_in_grace
           "k" "k:regen_lock" "v" 50 ["100"; "200"; "100"]);
    [reflexivity | reflexivity | reflexivity | reflexivity | discriminate | reflexivity].
Defined.

(** For a key the module derives the suffixed lock key for, the record
    under the key followed by the suffix is gone after a successful set:
    every key without a NUL byte in the original module, every key of at
    most 500 bytes in the enhanced one. *)
Lemma set_releases_suffixed_key (V : variant) (c : ctx) (cmd key value a3 : string) :
  lock_key V key = Some (key +:+ REGEN_LOCK_SUFFIX) ->
  fst (set V c [cmd; key; value; a3]) = OK ->
  db (snd (set V c [cmd; key; value; a3])) !! (key +:+ REGEN_LOCK_SUFFIX) = None.
Proof.
  intros Hlk H. apply set_OK_inv in H as (ms & Hp & Hk & Hv & Hms).
  rewrite (set_valid V c cmd key value a3 ms Hp Hk Hv Hms). simpl.
  pose proof (after_set_lock V c key value ms) as Hl. unfold lock_record in Hl.
  rewrite Hlk in Hl. exact Hl.
Qed.

(** C5 fails in the original module: the lock name is cut at the first NUL
    byte of the buffer, so two distinct keys that share the bytes before
    a NUL get one lock key, which is not the key followed by the suffix. *)
Theorem C5_original_lock_key_collision :
  "a" +:+ String NUL "b" <> "a" +:+ String NUL "c" /\
  Original.lockKey ("a" +:+ String NUL "b") = "a" /\
  Original.lockKey ("a" +:+ String NUL "c") = "a" /\
  Original.lockKey ("a" +:+ String NUL "b")
    <> ("a" +:+ String NUL "b") +:+ REGEN_LOCK_SUFFIX.
Proof. repeat split; try reflexivity; discriminate. Qed.

(** A consequence: in the original module, a set of the key a, NUL, b
    removes the cache entry of the key a. *)
Lemma Original_set_deletes_other_entry :
  db (snd (set original
             {| db := <["a" := Entry (VString "v") (Some 5000)]> ∅; opened := [] |}
             ["cache.guard.set"; "a" +:+ String NUL "b"; "x"; "1000"])) !! "a" = None.
Proof. vm_compute. reflexivity. Qed.

(** The enhanced derivation answers with the key followed by the suffix
    exactly for the keys of 1 to 500 bytes, whatever their bytes. *)
Lemma CreateLockKey_concat (key : string) :
  Enhanced.CreateLockKey key =
  if (1 <=? Z.of_nat (String.length key)) && (Z.of_nat (String.length key) <=? 500)
  then Some (key +:+ REGEN_LOCK_SUFFIX) else None.
Proof.
  destruct (Z.leb_spec 1 (Z.of_nat (String.length key))),
    (Z.leb_spec (Z.of_nat (String.length key)) 500); simpl.
  - apply CreateLockKey_valid. lia.
  - destruct (Enhanced.CreateLockKey key) eqn:E; [|reflexivity].
    apply CreateLockKey_Some in E. lia.
  - destruct (Enhanced.CreateLockKey key) eqn:E; [|reflexivity].
    apply CreateLockKey_Some in E. lia.
  - destruct (Enhanced.CreateLockKey key) eqn:E; [|reflexivity].
    apply CreateLockKey_Some in E. lia.
Qed.

(** Without a NUL byte in the keys, the original derivation is the key
    followed by the suffix, and one-to-one. *)
Lemma lockKey_injective (k1 k2 : string) :
  has_NUL k1 = false -> has_NUL k2 = false ->
  Original.lockKey k1 = Original.lockKey k2 -> k1 = k2.
Proof.
  intros H1 H2. rewrite !lockKey_no_NUL by assumption. apply append_inj_l.
Qed.

(** A key of 501 to 512 bytes passes the key check of the enhanced get, but
    no lock key is derived for it: an entry in grace is served stale to
    every caller. *)
Lemma Enhanced_long_key_never_regenerates (cfg : Enhanced.module_config_t) (c : ctx)
      (cmd key a2 : string) (g : Z) (v : string) (t : Z) :
  RedisModule_StringToLongLong a2 = Some g ->
  valid_grace (enhanced cfg) g = true ->
  500 < Z.of_nat (String.length key) <= Enhanced.MAX_KEY_LENGTH ->
  db c !! key = Some (Entry (VString v) (Some t)) ->
  t <= g ->
  get (enhanced cfg) c [cmd; key; a2] = (StaleValue v, opening key c).
Proof.
  intros Hp Hg Hlen Hk Ht.
  assert (Hkey : valid_key (enhanced cfg) key = true).
  { simpl. apply andb_true_iff. split.
    - apply negb_true_iff, Z.eqb_neq. lia.
    - apply Z.leb_le. lia. }
  rewrite (get_string (enhanced cfg) c cmd key a2 g v (Some t) Hp Hg Hkey Hk). simpl.
  destruct (Z.ltb_spec g t); [lia|].
  rewrite Enhanced_TryAcquireLock_eq, CreateLockKey_concat.
  destruct (Z.leb_spec (Z.of_nat (String.length key)) 500); [lia|].
  rewrite andb_false_r.
  destruct ((g <? Enhanced.MIN_GRACE_PERIOD_MS) || (g >? Enhanced.max_lock_duration cfg));
    reflexivity.
Qed.

(** * Further properties of get *)

Lemma get_missing_key_eq (V : variant) (c : ctx) (cmd key a2 : string) (g : Z) :
  RedisModule_StringToLongLong a2 = Some g ->
  valid_grace V g = true ->
  valid_key V key = true ->
  db c !! key = None ->
  get V c [cmd; key; a2] = (Regenerate, opening key c).
Proof.
  intros Hp Hg Hkey Hk. destruct c as [m ops]. simpl in Hk. destruct V as [|cfg]; simpl in *.
  - unfold Original.CacheGuardGetCommand. rewrite Hp. apply Z.leb_le in Hg.
    destruct (Z.ltb_spec g 0); [lia|].
    unfold RedisModule_OpenKey, opening. simpl. rewrite Hk. reflexivity.
  - unfold Enhanced.CacheGuardGetCommand. rewrite Hp.
    apply andb_true_iff in Hg as [Hg1 Hg2]. apply andb_true_iff in Hkey as [Hk1 Hk2].
    apply Z.leb_le in Hg1, Hg2, Hk2. apply negb_true_iff in Hk1.
    destruct (Z.ltb_spec g Enhanced.MIN_GRACE_PERIOD_MS); [lia|].
    destruct (Z.gtb_spec g Enhanced.MAX_GRACE_PERIOD_MS); [lia|]. simpl.
    rewrite Hk1.
    destruct (Z.gtb_spec (Z.of_nat (String.length key)) Enhanced.MAX_KEY_LENGTH); [lia|].
    unfold RedisModule_OpenKey, opening. simpl. rewrite Hk. reflexivity.
Qed.

(** A missing key is answered Regenerate; nothing is written, and the lock
    is not looked at. *)
Theorem get_missing_key (V : variant) (c : ctx) (cmd key a2 : string) (g : Z) :
  RedisModule_StringToLongLong a2 = Some g ->
  valid_grace V g = true ->
  valid_key V key = true ->
  db c !! key = None ->
  get V c [cmd; key; a2] = (Regenerate, opening key c) /\
  db (snd (get V c [cmd; key; a2])) = db c.
Proof.
  intros Hp Hg Hkey Hk. rewrite (get_missing_key_eq V c cmd key a2 g Hp Hg Hkey Hk).
  split; reflexivity.
Qed.

Lemma get_missing_key_witness :
  get (enhanced Enhanced.module_config) cache_in_grace ["cache.guard.get"; "other"; "100"]
  = (Regenerate, opening "other" cache_in_grace).
Proof.
  apply (get_missing_key (enhanced Enhanced.module_config) cache_in_grace
           "cache.guard.get" "other" "100" 100); reflexivity.
Defined.

(** The enhanced get refuses a key that holds a value of another type,
    whatever its time to live; no lock is taken. *)
Theorem Enhanced_get_non_string (cfg : Enhanced.module_config_t) (c : ctx)
        (cmd key a2 : string) (g : Z) (e : option Z) :
  RedisModule_StringToLongLong a2 = Some g ->
  valid_grace (enhanced cfg) g = true ->
  valid_key (enhanced cfg) key = true ->
  db c !! key = Some (Entry VOther e) ->
  Enhanced.CacheGuardGetCommand cfg c [cmd; key; a2]
  = (ReplyWithError "ERR key contains non-string data", opening key c).
Proof.
  intros Hp Hg Hkey Hk. destruct c as [m ops]. simpl in *.
  unfold Enhanced.CacheGuardGetCommand. rewrite Hp.
  apply andb_true_iff in Hg as [Hg1 Hg2]. apply andb_true_iff in Hkey as [Hk1 Hk2].
  apply Z.leb_le in Hg1, Hg2, Hk2. apply negb_true_iff in Hk1.
  destruct (Z.ltb_spec g Enhanced.MIN_GRACE_PERIOD_MS); [lia|].
  destruct (Z.gtb_spec g Enhanced.MAX_GRACE_PERIOD_MS); [lia|]. simpl.
  rewrite Hk1.
  destruct (Z.gtb_spec (Z.of_nat (String.length key)) Enhanced.MAX_KEY_LENGTH); [lia|].
  unfold RedisModule_OpenKey, opening. simpl. rewrite Hk. reflexivity.
Qed.

Lemma Enhanced_get_non_string_witness :
  Enhanced.CacheGuardGetCommand Enhanced.module_config
    {| db := <["h" := Entry VOther (Some 50)]> ∅; opened := [] |}
    ["cache.guard.get"; "h"; "100"]
  = (ReplyWithError "ERR key contains non-string data",
     opening "h" {| db := <["h" := Entry VOther (Some 50)]> ∅; opened := [] |}).
Proof.
  apply (Enhanced_get_non_string Enhanced.module_config
           {| db := <["h" := Entry VOther (Some 50)]> ∅; opened := [] |}
           "cache.guard.get" "h" "100" 100 (Some 50)); reflexivity.
Defined.

(** The enhanced get answers an empty key and a key of more than 512 bytes
    with an error before any key is opened. *)
Theorem Enhanced_get_invalid_key (cfg : Enhanced.module_config_t) (c : ctx)
        (cmd key a2 : string) (g : Z) :
  RedisModule_StringToLongLong a2 = Some g ->
  valid_grace (enhanced cfg) g = true ->
  valid_key (enhanced cfg) key = false ->
  Enhanced.CacheGuardGetCommand cfg c [cmd; key; a2]
  = (ReplyWithError (if String.eqb key EmptyString
                     then "ERR empty key not allowed" else "ERR key too long"), c).
Proof.
  intros Hp Hg Hkey. simpl in *. unfold Enhanced.CacheGuardGetCommand. rewrite Hp.
  apply andb_true_iff in Hg as [Hg1 Hg2]. apply Z.leb_le in Hg1, Hg2.
  destruct (Z.ltb_spec g Enhanced.MIN_GRACE_PERIOD_MS); [lia|].
  destruct (Z.gtb_spec g Enhanced.MAX_GRACE_PERIOD_MS); [lia|]. simpl.
  destruct key as [|a key]; [reflexivity|].
  change (String.eqb (String a key) EmptyString) with false. cbv iota.
  destruct (Z.eqb_spec (Z.of_nat (String.length (String a key))) 0) as [E|_];
    [simpl in E; lia|].
  destruct (Z.gtb_spec (Z.of_nat (String.length (String a key))) Enhanced.MAX_KEY_LENGTH)
    as [_|Hle]; [reflexivity|].
  apply andb_false_iff in Hkey as [Hkey|Hkey].
  - discriminate Hkey.
  - apply Z.leb_gt in Hkey. lia.
Qed.

Lemma Enhanced_get_invalid_key_witness :
  Enhanced.CacheGuardGetCommand Enhanced.module_config cache_in_grace
    ["cache.guard.get"; ""; "100"]
  = (ReplyWithError "ERR empty key not allowed", cache_in_grace).
Proof.
  apply (Enhanced_get_invalid_key Enhanced.module_config cache_in_grace
           "cache.guard.get" "" "100" 100); reflexivity.
Defined.

Lemma acquire_db (V : variant) (c : ctx) (key : string) (d : Z) :
  db (snd (acquire V c key d)) = db c \/
  exists lk, lock_key V key = Some lk /\ db c !! lk = None /\
             db (snd (acquire V c key d)) = <[lk := lock_entry d]> (db c).
Proof.
  rewrite acquire_eq. destruct (can_lock V key d); [|left; reflexivity].
  destruct (lock_key V key) as [lk|]; [|left; reflexivity].
  destruct (db c !! lk) eqn:E; [left; reflexivity|].
  right. exists lk. repeat split. exact E.
Qed.

(** Get changes the keyspace in one way only: it may add the lock record of
    its key, where none was. No record is removed or changed, an entry
    whose time is up included. *)
Theorem get_only_adds_lock (V : variant) (c : ctx) (argv : list string) :
  db (snd (get V c argv)) = db c \/
  exists cmd key a2 g lk,
    argv = [cmd; key; a2] /\ RedisModule_StringToLongLong a2 = Some g /\
    lock_key V key = Some lk /\ db c !! lk = None /\
    db (snd (get V c argv)) = <[lk := lock_entry g]> (db c).
Proof.
  destruct argv as [|cmd [|key [|a2 [|x rest]]]];
    try (left; destruct V; reflexivity).
  destruct (RedisModule_StringToLongLong a2) as [g|] eqn:Hp;
    [|left; destruct V; simpl;
      [unfold Original.CacheGuardGetCommand | unfold Enhanced.CacheGuardGetCommand];
      rewrite Hp; reflexivity].
  assert (Hacq : forall c1 : ctx, db c1 = db c ->
            db (snd (acquire V c1 key g)) = db c \/
            exists cmd0 key0 a0 g0 lk,
              [cmd; key; a2] = [cmd0; key0; a0] /\
              RedisModule_StringToLongLong a0 = Some g0 /\
              lock_key V key0 = Some lk /\ db c !! lk = None /\
              db (snd (acquire V c1 key g)) = <[lk := lock_entry g0]> (db c)).
  { intros c1 Hc1. destruct (acquire_db V c1 key g) as [H | (lk & Hlk & Hn & H)].
    - left. congruence.
    - right. exists cmd, key, a2, g, lk. rewrite <- Hc1. repeat split; assumption. }
  destruct c as [m ops]. destruct V as [|cfg]; simpl in *.
  - unfold Original.CacheGuardGetCommand. rewrite Hp.
    destruct (g <? 0); [left; reflexivity|].
    unfold RedisModule_OpenKey. simpl.
    destruct (m !! key) as [[[s|] e]|] eqn:Hk; simpl; [| |left; reflexivity].
    all: match goal with
         | |- context [if (?a =? REDISMODULE_NO_EXPIRE) || ?b then _ else _] =>
             destruct ((a =? REDISMODULE_NO_EXPIRE) || b)
         end; [left; reflexivity|].
    all: specialize (Hacq {| db := m; opened := (ops ++ [key])%list |} eq_refl).
    all: destruct (Original.TryAcquireLock _ key g) as [[|] c']; simpl in *; exact Hacq.
  - unfold Enhanced.CacheGuardGetCommand. rewrite Hp.
    destruct ((g <? Enhanced.MIN_GRACE_PERIOD_MS) || (g >? Enhanced.MAX_GRACE_PERIOD_MS));
      [left; reflexivity|].
    destruct (Z.of_nat (String.length key) =? 0); [left; reflexivity|].
    destruct (Z.of_nat (String.length key) >? Enhanced.MAX_KEY_LENGTH); [left; reflexivity|].
    unfold RedisModule_OpenKey. simpl.
    destruct (m !! key) as [[[s|] e]|] eqn:Hk; simpl; try (left; reflexivity).
    match goal with
    | |- context [if (?a =? REDISMODULE_NO_EXPIRE) || ?b then _ else _] =>
        destruct ((a =? REDISMODULE_NO_EXPIRE) || b)
    end;
      [left; reflexivity|].
    specialize (Hacq {| db := m; opened := (ops ++ [key])%list |} eq_refl).
    destruct (Enhanced.TryAcquireLock cfg _ key g) as [[|] c']; simpl in *; exact Hacq.
Qed.

(** * Further properties of set *)

(** Set either accepts its arguments, answers OK and leaves [after_set], or
    answers something else and leaves everything as it was. *)
Lemma set_cases (V : variant) (c : ctx) (argv : list string) :
  (exists cmd key value a3 ms,
      argv = [cmd; key; value; a3] /\
      RedisModule_StringToLongLong a3 = Some ms /\
      valid_key V key = true /\ valid_value V value = true /\
      valid_expire V ms = true /\
      set V c argv = (OK, after_set V c key value ms)) \/
  (fst (set V c argv) <> OK /\ snd (set V c argv) = c).
Proof.
  assert (Harity : forall argv', fst (set V c argv') = ReplyWrongArity ->
                                 snd (set V c argv') = c ->
                                 fst (set V c argv') <> OK /\ snd (set V c argv') = c).
  { intros argv' H1 H2. split; [rewrite H1; discriminate | exact H2]. }
  destruct argv as [|cmd [|key [|value [|a3 [|x rest]]]]].
  1-4, 6: right; apply Harity; destruct V; reflexivity.
  destruct (RedisModule_StringToLongLong a3) as [ms|] eqn:Hp.
  - destruct (valid_key V key) eqn:Hk, (valid_value V value) eqn:Hv,
      (valid_expire V ms) eqn:Hms;
      try (left; exists cmd, key, value, a3, ms; repeat split; try assumption;
           now apply set_valid).
    all: right; destruct V as [|cfg]; simpl in *; try discriminate.
    all: try (unfold Original.CacheGuardSetCommand; rewrite Hp;
              apply Z.ltb_ge in Hms; destruct (Z.leb_spec ms 0); [|lia];
              split; [discriminate | reflexivity]).
    all: unfold Enhanced.CacheGuardSetCommand.
    all: destruct (Z.of_nat (String.length key) =? 0);
      [split; [discriminate | reflexivity]|].
    all: destruct (Z.of_nat (String.length key) >? Enhanced.MAX_KEY_LENGTH) eqn:E2;
      [split; [discriminate | reflexivity]|].
    all: destruct (Z.of_nat (String.length value) >? 10 * 1024 * 1024) eqn:E3;
      [split; [discriminate | reflexivity]|].
    all: rewrite Hp.
    all: destruct ((ms <? Enhanced.MIN_EXPIRE_MS) || (ms >? Enhanced.MAX_EXPIRE_MS)) eqn:E4;
      [split; [discriminate | reflexivity]|].
    all: exfalso; apply orb_false_iff in E4 as [E4 E5];
      rewrite Z.gtb_ltb in E2, E3, E5;
      apply Z.ltb_ge in E2, E3, E4, E5.
    all: repeat match goal with
           | H : (_ && _) = false |- _ => apply andb_false_iff in H as [H|H]
           | H : negb _ = false |- _ => discriminate H
           | H : (_ <=? _) = false |- _ => apply Z.leb_gt in H
           end; lia.
  - right. destruct V as [|cfg]; simpl.
    + unfold Original.CacheGuardSetCommand. rewrite Hp. split; [discriminate | reflexivity].
    + unfold Enhanced.CacheGuardSetCommand.
      destruct (Z.of_nat (String.length key) =? 0); [split; [discriminate | reflexivity]|].
      destruct (Z.of_nat (String.length key) >? Enhanced.MAX_KEY_LENGTH);
        [split; [discriminate | reflexivity]|].
      destruct (Z.of_nat (String.length value) >? 10 * 1024 * 1024);
        [split; [discriminate | reflexivity]|].
      rewrite Hp. split; [discriminate | reflexivity].
Qed.

(** A set that does not answer OK has no effect: no key is opened and the
    keyspace is as before, for every argument list. *)
Theorem set_rejected_no_effect (V : variant) (c : ctx) (argv : list string) :
  fst (set V c argv) <> OK -> snd (set V c argv) = c.
Proof.
  intros H. destruct (set_cases V c argv) as [(cmd & key & value & a3 & ms & _ & _ & _ & _ & _ & E) | [_ E]].
  - rewrite E in H. now destruct H.
  - exact E.
Qed.

Lemma set_rejected_no_effect_witness :
  snd (set original cache_in_grace_locked ["cache.guard.set"; "k"; "payload"; "0"])
  = cache_in_grace_locked.
Proof.
  apply (set_rejected_no_effect original cache_in_grace_locked
           ["cache.guard.set"; "k"; "payload"; "0"]).
  discriminate.
Defined.

(** Set touches two names only: every record under a name other than the
    key and its lock key is as before. *)
Theorem set_frame (V : variant) (c : ctx) (argv : list string) (cmd key value a3 name : string) :
  argv = [cmd; key; value; a3] ->
  name <> key ->
  lock_key V key <> Some name ->
  db (snd (set V c argv)) !! name = db c !! name.
Proof.
  intros -> Hk Hl.
  destruct (set_cases V c [cmd; key; value; a3])
    as [(cmd0 & key0 & value0 & a0 & ms & [= <- <- <- <-] & _ & _ & _ & _ & E) | [_ E]].
  - rewrite E. simpl. unfold after_set.
    destruct (lock_key V key) as [lk|]; simpl.
    + rewrite lookup_delete_ne by congruence. now rewrite lookup_insert_ne by congruence.
    + now rewrite lookup_insert_ne by congruence.
  - now rewrite E.
Qed.

Lemma set_frame_witness :
  db (snd (set (enhanced Enhanced.module_config) cache_in_grace_locked
             ["cache.guard.set"; "other"; "payload"; "60000"])) !! "k"
  = Some (Entry (VString "v") (Some 50)).
Proof.
  apply (set_frame (enhanced Enhanced.module_config) cache_in_grace_locked
           ["cache.guard.set"; "other"; "payload"; "60000"]
           "cache.guard.set" "other" "payload" "60000" "k");
    [reflexivity | discriminate | discriminate].
Defined.

Lemma after_set_twice (V : variant) (c : ctx) (key v1 v2 : string) (t1 t2 : Z) :
  db (after_set V (after_set V c key v1 t1) key v2 t2) = db (after_set V c key v2 t2).
Proof.
  unfold after_set. destruct (lock_key V key) as [lk|] eqn:E; simpl.
  - pose proof (lock_key_ne V key lk E) as Hne.
    apply map_eq. intros i.
    destruct (decide (i = lk)) as [->|Hi].
    + now rewrite !lookup_delete_eq.
    + rewrite !lookup_delete_ne by congruence.
      destruct (decide (i = key)) as [->|Hik].
      * now rewrite !lookup_insert_eq.
      * rewrite !lookup_insert_ne by congruence.
        rewrite lookup_delete_ne by congruence. now rewrite lookup_insert_ne by congruence.
  - apply insert_insert_eq.
Qed.

(** The last set wins: two accepted sets of one key leave the keyspace that
    the second one alone leaves, value and time to live of the first one
    gone. *)
Theorem set_twice (V : variant) (c : ctx) (cmd key v1 a1 v2 a2 : string) (t1 t2 : Z) :
  valid_key V key = true ->
  RedisModule_StringToLongLong a1 = Some t1 ->
  valid_value V v1 = true -> valid_expire V t1 = true ->
  RedisModule_StringToLongLong a2 = Some t2 ->
  valid_value V v2 = true -> valid_expire V t2 = true ->
  db (snd (set V (snd (set V c [cmd; key; v1; a1])) [cmd; key; v2; a2]))
  = db (snd (set V c [cmd; key; v2; a2])).
Proof.
  intros Hk Hp1 Hv1 Ht1 Hp2 Hv2 Ht2.
  rewrite (set_valid V c cmd key v1 a1 t1 Hp1 Hk Hv1 Ht1). simpl.
  rewrite !(set_valid V _ cmd key v2 a2 t2 Hp2 Hk Hv2 Ht2). simpl.
  apply after_set_twice.
Qed.

Lemma set_twice_witness :
  db (snd (set original (snd (set original cache_in_grace_locked
                                  ["cache.guard.set"; "k"; "one"; "1000"]))
             ["cache.guard.set"; "k"; "two"; "2000"]))
  = db (snd (set original cache_in_grace_locked ["cache.guard.set"; "k"; "two"; "2000"])).
Proof.
  apply (set_twice original cache_in_grace_locked "cache.guard.set" "k"
           "one" "1000" "two" "2000" 1000 2000); reflexivity.
Defined.

(** * The lock over time *)

Lemma elapse_lookup (d : Z) (c : ctx) (name : string) :
  db (elapse d c) !! name = db c !! name ≫= age d.
Proof. unfold elapse. simpl. apply lookup_omap. Qed.

(** The lock taken by a get lasts as long as the entry it guards: once a
    caller was told to regenerate an entry in grace, every later caller
    that finds this entry in grace is served the stale value. *)
Theorem one_regeneration_per_entry (V : variant) (c : ctx) (cmd key a2 a' lk v : string)
        (g t d : Z) :
  RedisModule_StringToLongLong a2 = Some g ->
  valid_grace V g = true ->
  valid_key V key = true ->
  can_lock V key g = true ->
  lock_key V key = Some lk ->
  db c !! key = Some (Entry (VString v) (Some t)) ->
  t <= g ->
  db c !! lk = None ->
  0 <= d ->
  in_grace_call V key (t - d) a' = true ->
  fst (get V c [cmd; key; a2]) = Regenerate /\
  fst (get V (elapse d (snd (get V c [cmd; key; a2]))) ["cache.guard.get"; key; a'])
  = StaleValue v.
Proof.
  intros Hp Hg Hkey Hcan Hlk Hk Ht Hl Hd Ha.
  assert (Hg0 : 0 <= g).
  { destruct V; simpl in Hg.
    - now apply Z.leb_le.
    - apply andb_true_iff in Hg as [Hg _]. apply Z.leb_le in Hg.
      unfold Enhanced.MIN_GRACE_PERIOD_MS in Hg. lia. }
  assert (Htd : 0 < t - d).
  { unfold in_grace_call in Ha. destruct (RedisModule_StringToLongLong a'); [|discriminate].
    apply andb_true_iff in Ha as [Ha _]. apply andb_true_iff in Ha as [_ Ha].
    now apply Z.ltb_lt. }
  pose proof (lock_key_ne V key lk Hlk) as Hne.
  rewrite (get_string V c cmd key a2 g v (Some t) Hp Hg Hkey Hk). simpl.
  destruct (Z.ltb_spec g t); [lia|].
  rewrite acquire_eq, Hcan, Hlk. simpl. rewrite Hl. simpl. split; [reflexivity|].
  apply (get_locked V _ key a' lk v (t - d) Ha Hkey Hlk).
  - rewrite elapse_lookup. simpl. rewrite lookup_insert_ne by congruence. rewrite Hk.
    simpl. unfold age. simpl. destruct (Z.ltb_spec (t - d) 0); [lia | reflexivity].
  - rewrite elapse_lookup. simpl. rewrite lookup_insert_eq. simpl.
    unfold age, lock_entry. destruct (Z.ltb_spec g 0); [lia|].
    destruct (Z.eqb_spec g REDISMODULE_NO_EXPIRE) as [E|_];
      [unfold REDISMODULE_NO_EXPIRE in E; lia|].
    simpl. destruct (Z.ltb_spec (g - d) 0); [lia | eexists; reflexivity].
Qed.

Lemma one_regeneration_per_entry_witness :
  fst (get original cache_in_grace ["cache.guard.get"; "k"; "100"]) = Regenerate /\
  fst (get original (elapse 30 (snd (get original cache_in_grace
                                         ["cache.guard.get"; "k"; "100"])))
           ["cache.guard.get"; "k"; "200"])
  = StaleValue "v".
Proof.
  apply (one_regeneration_per_entry original cache_in_grace "cache.guard.get" "k"
           "100" "200" "k:regen_lock" "v" 100 50 30);
    try reflexivity; lia.
Defined.



(** * Keys with a NUL byte in the original module *)

Lemma c_str_append_NUL (k r : string) : has_NUL k = true -> c_str (k +:+ r) = c_str k.
Proof.
  induction k as [|a k IH]; simpl; [discriminate|]. intros H.
  rewrite !c_str_cons. destruct (Ascii.eqb a NUL); [reflexivity|].
  simpl in H. f_equal. now apply IH.
Qed.

(** For a key with a NUL byte the original module uses, as lock key, the
    bytes of the key before its first NUL: an accepted set of such a key
    removes the record of that name, a cache entry included. *)
Theorem Original_NUL_key_lock (c : ctx) (cmd key value a3 : string) :
  has_NUL key = true ->
  Original.lockKey key = c_str key /\
  (fst (set original c [cmd; key; value; a3]) = OK ->
   db (snd (set original c [cmd; key; value; a3])) !! c_str key = None).
Proof.
  intros H.
  assert (E : Original.lockKey key = c_str key).
  { rewrite lockKey_c_str. now apply c_str_append_NUL. }
  split; [exact E|]. intros HOK.
  apply set_OK_inv in HOK as (ms & Hp & Hk & Hv & Hms).
  rewrite (set_valid original c cmd key value a3 ms Hp Hk Hv Hms). cbn [snd].
  rewrite <- E. exact (after_set_lock original c key value ms).
Qed.

Lemma Original_NUL_key_lock_witness :
  Original.lockKey ("user" +:+ String NUL "1") = "user" /\
  db (snd (set original
             {| db := <["user" := Entry (VString "v") None]> ∅; opened := [] |}
             ["cache.guard.set"; "user" +:+ String NUL "1"; "x"; "1000"])) !! "user"
  = None.
Proof.
  destruct (Original_NUL_key_lock
              {| db := <["user" := Entry (VString "v") None]> ∅; opened := [] |}
              "cache.guard.set" ("user" +:+ String NUL "1") "x" "1000" eq_refl)
    as [E H].
  split; [exact E | apply H; reflexivity].
Defined.

(** * The first module *)

Lemma SM_get_missing (c : ctx) (cmd key : string) :
  db c !! key = None ->
  SM.CacheGetSMCommand c [cmd; key] = (ReplyWithNull, opening key c).
Proof.
  intros Hk. destruct c as [m ops]. simpl in Hk.
  unfold SM.CacheGetSMCommand, RedisModule_OpenKey, opening. simpl. now rewrite Hk.
Qed.

Lemma SM_get_string (c : ctx) (cmd key v : string) (e : option Z) :
  db c !! key = Some (Entry (VString v) e) ->
  SM.CacheGetSMCommand c [cmd; key] =
  if fresh e 0
  then (ReplyWithString Fresh v, opening key c)
  else (ReplyWithNull, {| db := delete key (db c); opened := (opened c ++ [key])%list |}).
Proof.
  intros Hk. destruct c as [m ops]. simpl in Hk.
  unfold SM.CacheGetSMCommand, RedisModule_OpenKey, opening. simpl. rewrite Hk. simpl.
  rewrite (ttl_test e 0) by lia. destruct (fresh e 0); reflexivity.
Qed.

(** [cache.getsm] answers with the value of an entry that has no expiry or
    time left; an entry whose time is up is deleted and answered with
    null. *)
Theorem SM_get_entry (c : ctx) (cmd key v : string) (e : option Z) :
  db c !! key = Some (Entry (VString v) e) ->
  SM.CacheGetSMCommand c [cmd; key] =
  (if fresh e 0 then ReplyWithString Fresh v else ReplyWithNull,
   {| db := if fresh e 0 then db c else delete key (db c);
      opened := (opened c ++ [key])%list |}).
Proof.
  intros Hk. rewrite (SM_get_string c cmd key v e Hk). destruct (fresh e 0); reflexivity.
Qed.

Lemma SM_get_entry_witness :
  SM.CacheGetSMCommand cache_expired_locked ["cache.getsm"; "k"]
  = (ReplyWithNull,
     {| db := delete "k" (db cache_expired_locked); opened := ["k"] |}).
Proof.
  apply (SM_get_entry cache_expired_locked "cache.getsm" "k" "old" (Some 0)).
  reflexivity.
Defined.

(** Whenever [cache.getsm] answers null, the key is gone from the keyspace
    it leaves, and every later [cache.getsm] of the key is answered null
    as well: all callers that come after the expiry are told to
    regenerate, not one of them. *)
Theorem SM_null_for_every_caller (c : ctx) (cmd cmd' key : string) :
  fst (SM.CacheGetSMCommand c [cmd; key]) = ReplyWithNull ->
  db (snd (SM.CacheGetSMCommand c [cmd; key])) !! key = None /\
  fst (SM.CacheGetSMCommand (snd (SM.CacheGetSMCommand c [cmd; key])) [cmd'; key])
  = ReplyWithNull.
Proof.
  intros H.
  assert (Hk : db (snd (SM.CacheGetSMCommand c [cmd; key])) !! key = None).
  { destruct (db c !! key) as [[[v|] e]|] eqn:Hk.
    - rewrite (SM_get_string c cmd key v e Hk) in *.
      destruct (fresh e 0); [discriminate|]. simpl. apply lookup_delete_eq.
    - revert H. destruct c as [m ops]. simpl in Hk.
      unfold SM.CacheGetSMCommand, RedisModule_OpenKey. simpl. rewrite Hk. simpl.
      match goal with
      | |- context [if (?a =? REDISMODULE_NO_EXPIRE) || ?b then _ else _] =>
          destruct ((a =? REDISMODULE_NO_EXPIRE) || b)
      end; [discriminate|]. intros _. simpl. apply lookup_delete_eq.
    - rewrite (SM_get_missing c cmd key Hk). exact Hk. }
  split; [exact Hk|]. now rewrite (SM_get_missing _ cmd' key Hk).
Qed.

Lemma SM_null_for_every_caller_witness :
  fst (SM.CacheGetSMCommand
         (snd (SM.CacheGetSMCommand cache_expired_locked ["cache.getsm"; "k"]))
         ["cache.getsm"; "k"])
  = ReplyWithNull.
Proof.
  apply (SM_null_for_every_caller cache_expired_locked "cache.getsm" "cache.getsm" "k").
  reflexivity.
Defined.

Lemma SM_set_eq (c : ctx) (cmd key value a3 : string) (ms : Z) :
  RedisModule_StringToLongLong a3 = Some ms ->
  SM.CacheSetSMCommand c [cmd; key; value; a3]
  = (OK, {| db := <[key := Entry (VString value) (stored_expiry ms)]> (db c);
            opened := (opened c ++ [key])%list |}).
Proof.
  intros Hp. destruct c as [m ops].
  unfold SM.CacheSetSMCommand, RedisModule_OpenKey. rewrite Hp. simpl.
  unfold RedisModule_SetExpire, stored_expiry. simpl. rewrite lookup_insert_eq. simpl.
  destruct (ms <? 0), (ms =? REDISMODULE_NO_EXPIRE); simpl;
    try rewrite insert_insert_eq; reflexivity.
Qed.

(** [cache.setsm] does not check the expiry: with a negative one it answers
    OK and the value stays for good, every later [cache.getsm] answers
    with it. *)
Theorem SM_negative_expire_never_expires (c : ctx) (cmd cmd' key value a3 : string)
        (ms d : Z) :
  RedisModule_StringToLongLong a3 = Some ms ->
  ms < 0 ->
  0 <= d ->
  fst (SM.CacheSetSMCommand c [cmd; key; value; a3]) = OK /\
  fst (SM.CacheGetSMCommand (elapse d (snd (SM.CacheSetSMCommand c [cmd; key; value; a3])))
         [cmd'; key])
  = ReplyWithString Fresh value.
Proof.
  intros Hp Hms Hd. rewrite (SM_set_eq c cmd key value a3 ms Hp). cbn [fst snd].
  split; [reflexivity|].
  rewrite (SM_get_string _ cmd' key value None); [reflexivity|].
  rewrite elapse_lookup. simpl. rewrite lookup_insert_eq. unfold stored_expiry.
  destruct (Z.ltb_spec ms 0); [reflexivity | lia].
Qed.

Lemma SM_negative_expire_never_expires_witness :
  fst (SM.CacheGetSMCommand
         (elapse 1000000
            (snd (SM.CacheSetSMCommand cache_in_grace ["cache.setsm"; "j"; "v"; "-5"])))
         ["cache.getsm"; "j"])
  = ReplyWithString Fresh "v".
Proof.
  apply (SM_negative_expire_never_expires cache_in_grace "cache.setsm" "cache.getsm"
           "j" "v" "-5" (-5) 1000000); [reflexivity | lia | lia].
Defined.

(** [cache.setsm] with an expiry of [ms] milliseconds, then [cache.getsm]
    after [d] milliseconds: the value before the time is up, null from
    then on. *)
Theorem SM_set_get (c : ctx) (cmd cmd' key value a3 : string) (ms d : Z) :
  RedisModule_StringToLongLong a3 = Some ms ->
  0 <= ms ->
  0 <= d ->
  fst (SM.CacheGetSMCommand (elapse d (snd (SM.CacheSetSMCommand c [cmd; key; value; a3])))
         [cmd'; key])
  = if d <? ms then ReplyWithString Fresh value else ReplyWithNull.
Proof.
  intros Hp Hms Hd. rewrite (SM_set_eq c cmd key value a3 ms Hp). cbn [fst snd].
  assert (Hst : stored_expiry ms = Some ms).
  { unfold stored_expiry. destruct (Z.ltb_spec ms 0); [lia|].
    destruct (Z.eqb_spec ms REDISMODULE_NO_EXPIRE) as [E|_];
      [unfold REDISMODULE_NO_EXPIRE in E; lia | reflexivity]. }
  destruct (Z.ltb_spec (ms - d) 0) as [Hneg|Hpos].
  - rewrite SM_get_missing.
    + destruct (Z.ltb_spec d ms); [lia | reflexivity].
    + rewrite elapse_lookup. simpl. rewrite lookup_insert_eq, Hst. simpl.
      unfold age. simpl. destruct (Z.ltb_spec (ms - d) 0); [reflexivity | lia].
  - rewrite (SM_get_string _ cmd' key value (Some (ms - d))).
    + simpl. destruct (Z.ltb_spec 0 (ms - d)), (Z.ltb_spec d ms); try lia; reflexivity.
    + rewrite elapse_lookup. simpl. rewrite lookup_insert_eq, Hst. simpl.
      unfold age. simpl. destruct (Z.ltb_spec (ms - d) 0); [lia | reflexivity].
Qed.

Lemma SM_set_get_witness :
  fst (SM.CacheGetSMCommand
         (elapse 999 (snd (SM.CacheSetSMCommand cache_in_grace
                             ["cache.setsm"; "j"; "v"; "1000"])))
         ["cache.getsm"; "j"])
  = ReplyWithString Fresh "v".
Proof.
  apply (SM_set_get cache_in_grace "cache.setsm" "cache.getsm" "j" "v" "1000" 1000 999);
    [reflexivity | lia | lia].
Defined.

(** * The configuration *)

(** A configuration command that does not answer OK leaves the
    configuration as it was. *)
Theorem config_rejected_unchanged (cfg : Enhanced.module_config_t) (argv : list string) :
  fst (Admin.CacheGuardConfigCommand cfg argv) <> Admin.Basic OK ->
  snd (Admin.CacheGuardConfigCommand cfg argv) = cfg.
Proof.
  unfold Admin.CacheGuardConfigCommand.
  destruct argv as [|name [|cmd rest]]; try reflexivity.
  destruct (Admin.strcasecmp_eq0 cmd "GET").
  - destruct rest as [|param [|x rest]]; try reflexivity.
    destruct (Admin.strcasecmp_eq0 param "log_level"); [reflexivity|].
    destruct (Admin.strcasecmp_eq0 param "max_lock_duration"); reflexivity.
  - destruct (Admin.strcasecmp_eq0 cmd "SET"); [|reflexivity].
    destruct rest as [|param [|a3 [|x rest]]]; try reflexivity.
    destruct (RedisModule_StringToLongLong a3) as [v|]; [|reflexivity].
    destruct (Admin.strcasecmp_eq0 param "log_level").
    + destruct ((v <? 0) || (v >? 3)); [reflexivity|]. intros H. now destruct H.
    + destruct (Admin.strcasecmp_eq0 param "max_lock_duration"); [|reflexivity].
      destruct ((v <? 1000) || (v >? 300000)); [reflexivity|]. intros H. now destruct H.
Qed.

Lemma config_rejected_unchanged_witness :
  snd (Admin.CacheGuardConfigCommand Enhanced.module_config
         ["cache.guard.config"; "SET"; "max_lock_duration"; "999"])
  = Enhanced.module_config.
Proof.
  apply (config_rejected_unchanged Enhanced.module_config
           ["cache.guard.config"; "SET"; "max_lock_duration"; "999"]).
  discriminate.
Defined.

Lemma config_step (cfg : Enhanced.module_config_t) (argv : list string) :
  Admin.config_ok cfg -> Admin.config_ok (snd (Admin.CacheGuardConfigCommand cfg argv)).
Proof.
  intros Hok. unfold Admin.CacheGuardConfigCommand.
  destruct argv as [|name [|cmd rest]]; try exact Hok.
  destruct (Admin.strcasecmp_eq0 cmd "GET").
  - destruct rest as [|param [|x rest]]; try exact Hok.
    destruct (Admin.strcasecmp_eq0 param "log_level"); [exact Hok|].
    destruct (Admin.strcasecmp_eq0 param "max_lock_duration"); exact Hok.
  - destruct (Admin.strcasecmp_eq0 cmd "SET"); [|exact Hok].
    destruct rest as [|param [|a3 [|x rest]]]; try exact Hok.
    destruct (RedisModule_StringToLongLong a3) as [v|]; [|exact Hok].
    destruct Hok as [Hl Hm].
    destruct (Admin.strcasecmp_eq0 param "log_level").
    + destruct (Z.ltb_spec v 0); [split; assumption|].
      destruct (Z.gtb_spec v 3); [split; assumption|].
      split; simpl; [lia | exact Hm].
    + destruct (Admin.strcasecmp_eq0 param "max_lock_duration"); [|split; assumption].
      destruct (Z.ltb_spec v 1000); [split; assumption|].
      destruct (Z.gtb_spec v 300000); [split; assumption|].
      split; simpl; [exact Hl | lia].
Qed.

Lemma configure_ok (cfg : Enhanced.module_config_t) (cmds : list (list string)) :
  Admin.config_ok cfg -> Admin.config_ok (Admin.configure cfg cmds).
Proof.
  unfold Admin.configure. revert cfg.
  induction cmds as [|argv cmds IH]; intros cfg Hok; [exact Hok|].
  simpl. apply IH. now apply config_step.
Qed.

Lemma module_config_ok : Admin.config_ok Enhanced.module_config.
Proof. unfold Admin.config_ok. simpl. lia. Qed.

(** Whatever configuration commands are issued, with whatever arguments,
    the log level stays between 0 and 3 and the longest lock duration
    between 1000 and 300000 milliseconds. *)
Theorem config_bounds_kept (cmds : list (list string)) :
  Admin.config_ok (Admin.configure Enhanced.module_config cmds).
Proof. apply configure_ok, module_config_ok. Qed.

Lemma strcasecmp_eq0_lower (a lit : string) :
  Admin.strcasecmp_eq0 a lit = String.eqb (Admin.lower (c_str a)) (Admin.lower (c_str lit)).
Proof. reflexivity. Qed.

(** An accepted change of [max_lock_duration] is what a following read
    answers, the names of the subcommands and of the parameter being read
    without regard to the case of their letters; the log level is not
    touched. *)
Theorem config_set_get (cfg : Enhanced.module_config_t) (name sub sub' p a3 : string)
        (v : Z) :
  Admin.lower (c_str sub) = "set" ->
  Admin.lower (c_str sub') = "get" ->
  Admin.lower (c_str p) = "max_lock_duration" ->
  RedisModule_StringToLongLong a3 = Some v ->
  1000 <= v <= 300000 ->
  let r := Admin.CacheGuardConfigCommand cfg [name; sub; p; a3] in
  fst r = Admin.Basic OK /\
  Enhanced.log_level (snd r) = Enhanced.log_level cfg /\
  Admin.CacheGuardConfigCommand (snd r) [name; sub'; p] = (Admin.ReplyWithLongLong v, snd r).
Proof.
  intros Hs Hg Hpar Hp Hv r. subst r. unfold Admin.CacheGuardConfigCommand.
  rewrite !strcasecmp_eq0_lower, Hs, Hg, Hpar, Hp.
  change (String.eqb "set" (Admin.lower (c_str "GET"))) with false.
  change (String.eqb "set" (Admin.lower (c_str "SET"))) with true.
  change (String.eqb "get" (Admin.lower (c_str "GET"))) with true.
  change (String.eqb "max_lock_duration" (Admin.lower (c_str "log_level"))) with false.
  change (String.eqb "max_lock_duration" (Admin.lower (c_str "max_lock_duration")))
    with true.
  cbv iota.
  destruct (Z.ltb_spec v 1000); [lia|]. destruct (Z.gtb_spec v 300000); [lia|].
  simpl. repeat split.
Qed.

Lemma config_set_get_witness :
  Admin.CacheGuardConfigCommand
    (snd (Admin.CacheGuardConfigCommand Enhanced.module_config
            ["cache.guard.config"; "set"; "Max_Lock_Duration"; "10000"]))
    ["cache.guard.config"; "Get"; "Max_Lock_Duration"]
  = (Admin.ReplyWithLongLong 10000,
     snd (Admin.CacheGuardConfigCommand Enhanced.module_config
            ["cache.guard.config"; "set"; "Max_Lock_Duration"; "10000"])).
Proof.
  apply (config_set_get Enhanced.module_config "cache.guard.config" "set" "Get"
           "Max_Lock_Duration" "10000" 10000); try reflexivity; lia.
Defined.

(** [cache.guard.info] announces as many elements as it sends, and its last
    element is the lock duration that an accepted configuration change
    stored. *)
Theorem info_reports_config (cfg : Enhanced.module_config_t) (name sub p a3 : string)
        (v : Z) :
  Admin.lower (c_str sub) = "set" ->
  Admin.lower (c_str p) = "max_lock_duration" ->
  RedisModule_StringToLongLong a3 = Some v ->
  1000 <= v <= 300000 ->
  let cfg' := snd (Admin.CacheGuardConfigCommand cfg [name; sub; p; a3]) in
  fst (Admin.CacheGuardInfoCommand cfg')
    = Z.of_nat (length (snd (Admin.CacheGuardInfoCommand cfg'))) /\
  last (snd (Admin.CacheGuardInfoCommand cfg')) = Some (Admin.ReplyWithLongLong v).
Proof.
  intros Hs Hpar Hp Hv cfg'. subst cfg'. unfold Admin.CacheGuardConfigCommand.
  rewrite !strcasecmp_eq0_lower, Hs, Hpar, Hp.
  change (String.eqb "set" (Admin.lower (c_str "GET"))) with false.
  change (String.eqb "set" (Admin.lower (c_str "SET"))) with true.
  change (String.eqb "max_lock_duration" (Admin.lower (c_str "log_level"))) with false.
  change (String.eqb "max_lock_duration" (Admin.lower (c_str "max_lock_duration")))
    with true.
  cbv iota.
  destruct (Z.ltb_spec v 1000); [lia|]. destruct (Z.gtb_spec v 300000); [lia|].
  split; reflexivity.
Qed.

Lemma info_reports_config_witness :
  last (snd (Admin.CacheGuardInfoCommand
               (snd (Admin.CacheGuardConfigCommand Enhanced.module_config
                       ["cache.guard.config"; "SET"; "max_lock_duration"; "10000"]))))
  = Some (Admin.ReplyWithLongLong 10000).
Proof.
  apply (info_reports_config Enhanced.module_config "cache.guard.config" "SET"
           "max_lock_duration" "10000" 10000); try reflexivity; lia.
Defined.

(** * The configuration and the lock *)

(** However the module is configured, a grace period above five minutes is
    never locked: get serves every entry in grace, or past its time, as a
    stale value and writes nothing. *)
Theorem long_grace_stale_under_any_config (cmds : list (list string)) (c : ctx)
        (cmd key a2 : string) (g : Z) (v : string) (t : Z) :
  RedisModule_StringToLongLong a2 = Some g ->
  300000 < g <= Enhanced.MAX_GRACE_PERIOD_MS ->
  1 <= Z.of_nat (String.length key) <= Enhanced.MAX_KEY_LENGTH ->
  db c !! key = Some (Entry (VString v) (Some t)) ->
  t <= g ->
  Enhanced.CacheGuardGetCommand (Admin.configure Enhanced.module_config cmds) c
    [cmd; key; a2]
  = (StaleValue v, opening key c).
Proof.
  intros Hp Hg Hlen Hk Ht.
  pose proof (configure_ok Enhanced.module_config cmds module_config_ok) as [_ Hmax].
  set (cfg := Admin.configure Enhanced.module_config cmds) in *.
  assert (Hvg : valid_grace (enhanced cfg) g = true).
  { simpl. apply andb_true_iff. unfold Enhanced.MIN_GRACE_PERIOD_MS.
    split; apply Z.leb_le; lia. }
  assert (Hvk : valid_key (enhanced cfg) key = true).
  { simpl. apply andb_true_iff. split.
    - apply negb_true_iff, Z.eqb_neq. lia.
    - apply Z.leb_le. lia. }
  rewrite (Enhanced_get_string cfg c cmd key a2 g v (Some t) Hp Hvg Hvk Hk). simpl.
  destruct (Z.ltb_spec g t); [lia|].
  rewrite Enhanced_TryAcquireLock_eq.
  destruct (Z.gtb_spec g (Enhanced.max_lock_duration cfg)); [|lia].
  rewrite orb_true_r. reflexivity.
Qed.

Lemma long_grace_stale_under_any_config_witness :
  Enhanced.CacheGuardGetCommand
    (Admin.configure Enhanced.module_config
       [["cache.guard.config"; "SET"; "max_lock_duration"; "300000"]])
    cache_in_grace ["cache.guard.get"; "k"; "300001"]
  = (StaleValue "v", opening "k" cache_in_grace).
Proof.
  apply (long_grace_stale_under_any_config
           [["cache.guard.config"; "SET"; "max_lock_duration"; "300000"]]
           cache_in_grace "cache.guard.get" "k" "300001" 300001 "v" 50);
    [reflexivity | split; [reflexivity | discriminate]
    | split; discriminate | reflexivity | discriminate].
Defined.

(** However the module is configured, a grace period between 100 and 1000
    milliseconds can be locked: for a key of at most 500 bytes without
    lock record, the get that finds the entry in grace is told to
    regenerate and leaves the lock, with the grace period as its time to
    live. *)
Theorem short_grace_locks_under_any_config (cmds : list (list string)) (c : ctx)
        (cmd key a2 : string) (g : Z) (v : string) (t : Z) :
  RedisModule_StringToLongLong a2 = Some g ->
  100 <= g <= 1000 ->
  1 <= Z.of_nat (String.length key) <= 500 ->
  db c !! key = Some (Entry (VString v) (Some t)) ->
  t <= g ->
  db c !! (key +:+ REGEN_LOCK_SUFFIX) = None ->
  let r := Enhanced.CacheGuardGetCommand (Admin.configure Enhanced.module_config cmds) c
             [cmd; key; a2] in
  fst r = Regenerate /\
  db (snd r) !! (key +:+ REGEN_LOCK_SUFFIX) = Some (Entry (VString "1") (Some g)).
Proof.
  intros Hp Hg Hlen Hk Ht Hl r. subst r.
  pose proof (configure_ok Enhanced.module_config cmds module_config_ok) as [_ Hmax].
  set (cfg := Admin.configure Enhanced.module_config cmds) in *.
  assert (Hvg : valid_grace (enhanced cfg) g = true).
  { simpl. apply andb_true_iff. unfold Enhanced.MIN_GRACE_PERIOD_MS.
    split; apply Z.leb_le; [lia | unfold Enhanced.MAX_GRACE_PERIOD_MS; lia]. }
  assert (Hvk : valid_key (enhanced cfg) key = true).
  { simpl. apply andb_true_iff. split.
    - apply negb_true_iff, Z.eqb_neq. lia.
    - apply Z.leb_le. unfold Enhanced.MAX_KEY_LENGTH. lia. }
  rewrite (Enhanced_get_string cfg c cmd key a2 g v (Some t) Hp Hvg Hvk Hk). simpl.
  destruct (Z.ltb_spec g t); [lia|].
  rewrite Enhanced_TryAcquireLock_eq, (CreateLockKey_valid key Hlen).
  destruct (Z.ltb_spec g Enhanced.MIN_GRACE_PERIOD_MS) as [Hlt|_];
    [unfold Enhanced.MIN_GRACE_PERIOD_MS in Hlt; lia|].
  destruct (Z.gtb_spec g (Enhanced.max_lock_duration cfg)); [lia|]. simpl.
  rewrite Hl. simpl. split; [reflexivity|]. rewrite lookup_insert_eq.
  unfold lock_entry. destruct (Z.ltb_spec g 0); [lia|].
  destruct (Z.eqb_spec g REDISMODULE_NO_EXPIRE) as [E|_];
    [unfold REDISMODULE_NO_EXPIRE in E; lia | reflexivity].
Qed.

Lemma short_grace_locks_under_any_config_witness :
  fst (Enhanced.CacheGuardGetCommand
         (Admin.configure Enhanced.module_config
            [["cache.guard.config"; "SET"; "max_lock_duration"; "1000"]])
         cache_in_grace ["cache.guard.get"; "k"; "1000"])
  = Regenerate.
Proof.
  apply (short_grace_locks_under_any_config
           [["cache.guard.config"; "SET"; "max_lock_duration"; "1000"]]
           cache_in_grace "cache.guard.get" "k" "1000" 1000 "v" 50);
    [reflexivity | split; discriminate | split; discriminate | reflexivity
    | discriminate | reflexivity].
Defined.

(** * The two modules compared *)

Lemma lock_key_agree (cfg : Enhanced.module_config_t) (key : string) :
  1 <= Z.of_nat (String.length key) <= 500 ->
  has_NUL key = false ->
  lock_key (enhanced cfg) key = lock_key original key.
Proof.
  intros Hlen Hn. simpl. rewrite (CreateLockKey_valid key Hlen), (lockKey_no_NUL key Hn).
  reflexivity.
Qed.

(** On the arguments both modules accept and the enhanced one can lock (a
    key of 1 to 500 bytes without NUL, a grace period between 100
    milliseconds and the longest lock duration), the enhanced get is the
    original get, for a missing key and for a key that holds a string:
    same reply, same keyspace, same keys opened. *)
Theorem get_variants_agree (cfg : Enhanced.module_config_t) (c : ctx)
        (cmd key a2 : string) (g : Z) :
  RedisModule_StringToLongLong a2 = Some g ->
  valid_grace (enhanced cfg) g = true ->
  can_lock (enhanced cfg) key g = true ->
  1 <= Z.of_nat (String.length key) <= 500 ->
  has_NUL key = false ->
  (forall e, db c !! key <> Some (Entry VOther e)) ->
  Enhanced.CacheGuardGetCommand cfg c [cmd; key; a2]
  = Original.CacheGuardGetCommand c [cmd; key; a2].
Proof.
  intros Hp Hvg Hcan Hlen Hn Hstr.
  assert (Hvk : valid_key (enhanced cfg) key = true).
  { simpl. apply andb_true_iff. split.
    - apply negb_true_iff, Z.eqb_neq. lia.
    - apply Z.leb_le. unfold Enhanced.MAX_KEY_LENGTH. lia. }
  assert (Hvg' : valid_grace original g = true).
  { simpl in *. apply andb_true_iff in Hvg as [Hvg _]. apply Z.leb_le in Hvg.
    unfold Enhanced.MIN_GRACE_PERIOD_MS in Hvg. apply Z.leb_le. lia. }
  destruct (db c !! key) as [[[v|] e]|] eqn:Hk.
  - change (get (enhanced cfg) c [cmd; key; a2] = get original c [cmd; key; a2]).
    rewrite (get_string (enhanced cfg) c cmd key a2 g v e Hp Hvg Hvk Hk).
    rewrite (get_string original c cmd key a2 g v e Hp Hvg' eq_refl Hk).
    destruct (fresh e g); [reflexivity|].
    rewrite !acquire_eq, Hcan, (lock_key_agree cfg key Hlen Hn). reflexivity.
  - now destruct (Hstr e).
  - change (get (enhanced cfg) c [cmd; key; a2] = get original c [cmd; key; a2]).
    rewrite (get_missing_key_eq (enhanced cfg) c cmd key a2 g Hp Hvg Hvk Hk).
    now rewrite (get_missing_key_eq original c cmd key a2 g Hp Hvg' eq_refl Hk).
Qed.

Lemma get_variants_agree_witness :
  Enhanced.CacheGuardGetCommand Enhanced.module_config cache_in_grace
    ["cache.guard.get"; "k"; "100"]
  = Original.CacheGuardGetCommand cache_in_grace ["cache.guard.get"; "k"; "100"].
Proof.
  apply (get_variants_agree Enhanced.module_config cache_in_grace
           "cache.guard.get" "k" "100" 100);
    [reflexivity | reflexivity | reflexivity | split; discriminate | reflexivity
    | discriminate].
Defined.

(** On the arguments the enhanced set accepts, for a key of at most 500
    bytes without NUL, the enhanced set is the original set. *)
Theorem set_variants_agree (cfg : Enhanced.module_config_t) (c : ctx)
        (cmd key value a3 : string) (ms : Z) :
  RedisModule_StringToLongLong a3 = Some ms ->
  valid_value (enhanced cfg) value = true ->
  valid_expire (enhanced cfg) ms = true ->
  1 <= Z.of_nat (String.length key) <= 500 ->
  has_NUL key = false ->
  Enhanced.CacheGuardSetCommand c [cmd; key; value; a3]
  = Original.CacheGuardSetCommand c [cmd; key; value; a3].
Proof.
  intros Hp Hv Hms Hlen Hn.
  assert (Hvk : valid_key (enhanced cfg) key = true).
  { simpl. apply andb_true_iff. split.
    - apply negb_true_iff, Z.eqb_neq. lia.
    - apply Z.leb_le. unfold Enhanced.MAX_KEY_LENGTH. lia. }
  assert (Hms' : valid_expire original ms = true).
  { simpl in *. apply andb_true_iff in Hms as [Hms _]. apply Z.leb_le in Hms.
    unfold Enhanced.MIN_EXPIRE_MS in Hms. apply Z.ltb_lt. lia. }
  change (set (enhanced cfg) c [cmd; key; value; a3] = set original c [cmd; key; value; a3]).
  rewrite (set_valid (enhanced cfg) c cmd key value a3 ms Hp Hvk Hv Hms).
  rewrite (set_valid original c cmd key value a3 ms Hp eq_refl eq_refl Hms').
  unfold after_set. rewrite (lock_key_agree cfg key Hlen Hn). reflexivity.
Qed.

Lemma set_variants_agree_witness :
  Enhanced.CacheGuardSetCommand cache_in_grace_locked
    ["cache.guard.set"; "k"; "payload"; "60000"]
  = Original.CacheGuardSetCommand cache_in_grace_locked
      ["cache.guard.set"; "k"; "payload"; "60000"].
Proof.
  apply (set_variants_agree Enhanced.module_config cache_in_grace_locked
           "cache.guard.set" "k" "payload" "60000" 60000);
    [reflexivity | reflexivity | reflexivity | split; discriminate | reflexivity].
Defined.

(** * Cache entries stored under a lock key *)

Lemma has_NUL_c_str (s : string) : has_NUL (c_str s) = false.
Proof.
  induction s as [|a s IH]; [reflexivity|]. rewrite c_str_cons.
  destruct (Ascii.eqb a NUL) eqn:E; [reflexivity|]. simpl. now rewrite E.
Qed.

Lemma has_NUL_append (a b : string) : has_NUL (a +:+ b) = has_NUL a || has_NUL b.
Proof.
  induction a as [|x a IH]; simpl; [reflexivity|]. rewrite IH. now rewrite orb_assoc.
Qed.

Lemma lock_key_twice_ne (V : variant) (key lk lk2 : string) :
  lock_key V key = Some lk -> lock_key V lk = Some lk2 -> lk2 <> key.
Proof.
  assert (Hlen : forall k : string, (k +:+ REGEN_LOCK_SUFFIX) +:+ REGEN_LOCK_SUFFIX <> k).
  { intros k H. apply (f_equal String.length) in H. rewrite !append_length in H.
    simpl in H. lia. }
  destruct V as [|cfg]; simpl.
  - intros [= <-] [= <-] H.
    assert (Hn : has_NUL (Original.lockKey key) = false)
      by (rewrite lockKey_c_str; apply has_NUL_c_str).
    rewrite (lockKey_no_NUL _ Hn) in H.
    assert (Hk : has_NUL key = false).
    { rewrite <- H, has_NUL_append, Hn. reflexivity. }
    rewrite (lockKey_no_NUL _ Hk) in H. now apply Hlen in H.
  - intros H1 H2 H. apply CreateLockKey_Some in H1 as [-> _].
    apply CreateLockKey_Some in H2 as [-> _]. now apply Hlen in H.
Qed.

(** The lock keys are ordinary keys: once a value is set under the lock key
    of another key, every get that finds that other key's entry in grace
    is served the stale value, as if a regeneration were under way. *)
Theorem entry_under_lock_key_blocks (V : variant) (c : ctx)
        (cmd key lk value a3 a v : string) (ms t : Z) :
  lock_key V key = Some lk ->
  RedisModule_StringToLongLong a3 = Some ms ->
  valid_key V lk = true ->
  valid_value V value = true ->
  valid_expire V ms = true ->
  valid_key V key = true ->
  db c !! key = Some (Entry (VString v) (Some t)) ->
  in_grace_call V key t a = true ->
  fst (set V c [cmd; lk; value; a3]) = OK /\
  fst (get V (snd (set V c [cmd; lk; value; a3])) ["cache.guard.get"; key; a])
  = StaleValue v.
Proof.
  intros Hlk Hp Hvl Hv Hms Hvk Hk Ha.
  rewrite (set_valid V c cmd lk value a3 ms Hp Hvl Hv Hms). cbn [fst snd].
  split; [reflexivity|].
  apply (get_locked V _ key a lk v t Ha Hvk Hlk).
  - pose proof (lock_key_ne V key lk Hlk) as Hne. unfold after_set.
    destruct (lock_key V lk) as [lk2|] eqn:E2; simpl.
    + pose proof (lock_key_twice_ne V key lk lk2 Hlk E2) as Hne2.
      rewrite lookup_delete_ne by congruence. now rewrite lookup_insert_ne by congruence.
    + now rewrite lookup_insert_ne by congruence.
  - rewrite after_set_entry. eexists. reflexivity.
Qed.

Lemma entry_under_lock_key_blocks_witness :
  fst (get (enhanced Enhanced.module_config)
         (snd (set (enhanced Enhanced.module_config) cache_in_grace
                   ["cache.guard.set"; "k:regen_lock"; "payload"; "60000"]))
         ["cache.guard.get"; "k"; "100"])
  = StaleValue "v".
Proof.
  apply (entry_under_lock_key_blocks (enhanced Enhanced.module_config) cache_in_grace
           "cache.guard.set" "k" "k:regen_lock" "payload" "60000" "100" "v" 60000 50);
    reflexivity.
Defined.

(** * The lock keys of the two modules *)

(** The enhanced derivation accepts the keys of 1 to 500 bytes, whatever
    their bytes, and answers with the key followed by the suffix; it
    refuses every other key. *)
Theorem CreateLockKey_accepts (key : string) :
  Enhanced.CreateLockKey key =
  if (1 <=? Z.of_nat (String.length key)) && (Z.of_nat (String.length key) <=? 500)
  then Some (key +:+ REGEN_LOCK_SUFFIX) else None.
Proof.
  destruct (Enhanced.CreateLockKey key) as [lk|] eqn:E.
  - apply CreateLockKey_Some in E as [-> Hlen].
    destruct (Z.leb_spec 1 (Z.of_nat (String.length key))); [|lia].
    destruct (Z.leb_spec (Z.of_nat (String.length key)) 500); [reflexivity | lia].
  - destruct (Z.leb_spec 1 (Z.of_nat (String.length key))); [|reflexivity].
    destruct (Z.leb_spec (Z.of_nat (String.length key)) 500); [|reflexivity].
    rewrite CreateLockKey_valid in E by lia. discriminate E.
Qed.

(** Two keys with one enhanced lock key are one key. *)
Theorem CreateLockKey_one_to_one (k1 k2 lk : string) :
  Enhanced.CreateLockKey k1 = Some lk -> Enhanced.CreateLockKey k2 = Some lk -> k1 = k2.
Proof.
  intros H1 H2. apply CreateLockKey_Some in H1 as [E1 _].
  apply CreateLockKey_Some in H2 as [E2 _]. rewrite E1 in E2.
  now apply append_inj_l in E2.
Qed.

Lemma CreateLockKey_one_to_one_witness :
  Enhanced.CreateLockKey ("a" +:+ String NUL "b") <> Enhanced.CreateLockKey ("a" +:+ String NUL "c").
Proof.
  intros H.
  assert (E : "a" +:+ String NUL "b" = "a" +:+ String NUL "c").
  { apply (CreateLockKey_one_to_one ("a" +:+ String NUL "b") ("a" +:+ String NUL "c")
             (("a" +:+ String NUL "b") +:+ REGEN_LOCK_SUFFIX));
      [reflexivity | rewrite <- H; reflexivity]. }
  discriminate E.
Defined.

(** For keys without NUL byte the original lock key is the key followed by
    the suffix, and two such keys with one lock key are one key. *)
Theorem Original_lockKey_without_NUL (k1 k2 : string) :
  has_NUL k1 = false ->
  has_NUL k2 = false ->
  Original.lockKey k1 = k1 +:+ REGEN_LOCK_SUFFIX /\
  (Original.lockKey k1 = Original.lockKey k2 -> k1 = k2).
Proof.
  intros H1 H2. rewrite !lockKey_c_str, (c_str_append k1), (c_str_append k2) by assumption.
  split; [reflexivity|]. apply append_inj_l.
Qed.

Lemma Original_lockKey_without_NUL_witness :
  Original.lockKey "user:1" = "user:1" +:+ REGEN_LOCK_SUFFIX.
Proof.
  apply (Original_lockKey_without_NUL "user:1" "user:2"); reflexivity.
Defined.

Lemma Enhanced_long_key_never_regenerates_witness :
  get (enhanced Enhanced.module_config)
    {| db := <[key_501 := Entry (VString "v") (Some 50)]> ∅; opened := [] |}
    ["cache.guard.get"; key_501; "100"]
  = (StaleValue "v",
     opening key_501
       {| db := <[key_501 := Entry (VString "v") (Some 50)]> ∅; opened := [] |}).
Proof.
  apply (Enhanced_long_key_never_regenerates Enhanced.module_config
           {| db := <[key_501 := Entry (VString "v") (Some 50)]> ∅; opened := [] |}
           "cache.guard.get" key_501 "100" 100 "v" 50);
    [reflexivity | reflexivity | split; vm_compute; [reflexivity | discriminate]
    | apply lookup_insert_eq | vm_compute; discriminate].
Defined.
